(** * bootstrap.py: repository provisioning, embedded and verified

    The script [bootstrap.py] clones or fetches each repository of a manifest,
    checks out its pinned ref, installs it with one of four strategies and
    makes its project root importable.

    The embedding is shallow.  The interpreter state the script mutates
    ([os.environ], [sys.path], the global [REPO_ROOT], what was printed) and
    the list of child processes it spawned are fields of a [World]; whatever
    lies outside the interpreter (file system, network, installed packages)
    is an abstract host state, observed and advanced only through the
    operations of the class [Host].  Python exceptions are the [Raise]
    outcome of a state-and-exception monad; the world at the point of the
    raise is kept, so that one can speak of what had happened before it. *)

From Stdlib Require Import ZArith.
From stdpp Require Import base option list strings gmap.

Open Scope string_scope.
Open Scope Z_scope.
Open Scope list_scope.

(** ** Data model *)

(** [class RepoSpec] (a dataclass). *)
Record RepoSpec := mkRepoSpec {
  name : string;
  url : string;
  ref : string;
  editable : bool;
  submodules : bool;
  extras : list string;
  install : string;
  path : string;
  env : gmap string string;
  post_install : option string
}.

(** The keyword arguments [**e] of a manifest entry.  A key that is a field
    of the dataclass carries a value of the annotated type ([None] when the
    key is absent); [kw_unknown] lists the keys that are no field. *)
Record Kwargs := mkKwargs {
  kw_name : option string;
  kw_url : option string;
  kw_ref : option string;
  kw_editable : option bool;
  kw_submodules : option bool;
  kw_extras : option (list string);
  kw_install : option string;
  kw_path : option string;
  kw_env : option (gmap string string);
  kw_post_install : option (option string);
  kw_unknown : list string
}.

(** The dictionary [{"name": ..., "path": ...}] returned by [install_repo]. *)
Record RunResult := mkRunResult {
  res_name : string;
  res_path : string
}.

(** One child process: its argv and the [cwd] it was started in. *)
Record Cmd := mkCmd {
  argv : list string;
  cwd : option string
}.

(** What the script prints.  The summary line
    [print("installed repos:", json.dumps(installed, indent=2))] is kept
    structured instead of rendered. *)
Inductive Output :=
  | Line (s : string)
  | InstalledRepos (installed : list RunResult).

Inductive Exn :=
  | SystemExit (msg : string)
  | TypeError
  | AttributeError.

(** ** The host: everything outside the interpreter *)

Class Host (X : Type) := {
  (** [subprocess.run(cmd, cwd=..., env=...)]: exit status, captured output
      and the host afterwards. *)
  exec : list string → option string → gmap string string → X → Z * string * X;
  (** [Path.exists()] *)
  path_exists : X → string → bool;
  (** whether [__import__(module)] succeeds *)
  importable : X → string → bool;
  (** [str(Path(p).resolve())] *)
  resolve : X → string → string;
  (** [str(Path(a) / b)] *)
  joinpath : string → string → string;
  (** [sys.executable] *)
  sys_executable : string;
  (** [from google.colab import drive; drive.mount(...)]: the message of the
      exception, or the host with the drive mounted. *)
  colab_mount : X → string + X;
  (** [Path.mkdir(parents=True, exist_ok=True)] *)
  mkdir : X → string → string + X;
  (** the two [run_line_magic] calls of [enable_autoreload] *)
  autoreload : X → X
}.

Section Bootstrap.

Context {X : Type} `{HostX : Host X}.

Record World := mkWorld {
  host : X;
  environ : gmap string string;
  sys_path : list string;
  REPO_ROOT : string;
  spawned : list Cmd;
  stdout : list Output
}.

(** ** State and exceptions *)

Inductive Res (A : Type) :=
  | Ok (a : A) (w : World)
  | Raise (e : Exn) (w : World).
Arguments Ok {A} a w.
Arguments Raise {A} e w.

Definition M (A : Type) : Type := World → Res A.

Definition ret {A} (a : A) : M A := fun w => Ok a w.

Definition bind {A B} (c : M A) (k : A → M B) : M B :=
  fun w => match c w with
           | Ok a w' => k a w'
           | Raise e w' => Raise e w'
           end.

Definition raise {A} (e : Exn) : M A := fun w => Raise e w.

Notation "'let*' x := c 'in' k" := (bind c (fun x => k))
  (at level 10, x name, c at level 100, k at level 200).
Notation "c ;; k" := (bind c (fun _ => k))
  (at level 100, k at level 200, right associativity).

Definition final {A} (r : Res A) : World :=
  match r with Ok _ w => w | Raise _ w => w end.

Definition print (o : Output) : M unit :=
  fun w => Ok tt (mkWorld (host w) (environ w) (sys_path w) (REPO_ROOT w)
                          (spawned w) (stdout w ++ [o])).

Definition set_host (x : X) (w : World) : World :=
  mkWorld x (environ w) (sys_path w) (REPO_ROOT w) (spawned w) (stdout w).

Definition set_environ (e : gmap string string) (w : World) : World :=
  mkWorld (host w) e (sys_path w) (REPO_ROOT w) (spawned w) (stdout w).

Definition set_sys_path (sp : list string) (w : World) : World :=
  mkWorld (host w) (environ w) sp (REPO_ROOT w) (spawned w) (stdout w).

Definition set_REPO_ROOT (r : string) (w : World) : World :=
  mkWorld (host w) (environ w) (sys_path w) r (spawned w) (stdout w).

(** ** [run] *)

Definition run (cmd : list string) (cwd : option string)
    (quiet check : bool) : M (Z * string) :=
  (if quiet then ret tt else print (Line ("$ " +:+ String.concat " " cmd))) ;;
  let* p := (fun w =>
          let '(rc, out, x) := exec cmd cwd (environ w) (host w) in
          Ok (rc, out) (mkWorld x (environ w) (sys_path w) (REPO_ROOT w)
                                (spawned w ++ [mkCmd cmd cwd]) (stdout w))) in
  (if quiet then ret tt else print (Line (snd p))) ;;
  if check && negb (fst p =? 0)
  then raise (SystemExit ("command failed: " +:+ String.concat " " cmd))
  else ret p.

(** ** [ensure] *)

(** Python's [a or b] for an [Optional[str]] [a]. *)
Definition py_or (a : option string) (b : string) : string :=
  match a with
  | Some (String _ _ as s) => s
  | _ => b
  end.

Definition ensure (module : string) (pip_name : option string) : M unit :=
  fun w =>
    if importable (host w) module then Ok tt w
    else (run [sys_executable; "-m"; "pip"; "install"; "-q";
               py_or pip_name module] None false true ;; ret tt) w.

(** ** [git_clone_or_fetch] *)

(** Truth value of an [Optional[str]]: [None] and the empty string are false. *)
Definition truthy (s : option string) : bool :=
  match s with
  | Some (String _ _) => true
  | _ => false
  end.

(** The local [clone_cmd] of [git_clone_or_fetch]: assigned the plain
    command, then reassigned when the token is truthy and the url starts with
    the GitHub prefix. *)
Definition clone_cmd (spec : RepoSpec) (gh_token : option string)
    (dest : string) : list string :=
  if truthy gh_token && String.prefix "https://github.com/" (url spec)
  then ["git"; "-c";
        "http.extraheader=AUTHORIZATION: bearer " +:+ default "" gh_token;
        "clone"; url spec; dest]
  else ["git"; "clone"; url spec; dest].

Definition git_clone_or_fetch (spec : RepoSpec) (gh_token : option string)
    : M string :=
  fun w =>
    let dest := joinpath (REPO_ROOT w) (name spec) in
    ((if path_exists (host w) dest
      then run ["git"; "fetch"; "--all"; "--tags"] (Some dest) false true
      else run (clone_cmd spec gh_token dest) None false true) ;;
     run ["git"; "checkout"; ref spec] (Some dest) false true ;;
     (if submodules spec
      then run ["git"; "submodule"; "update"; "--init"; "--recursive"]
               (Some dest) false true ;; ret tt
      else ret tt) ;;
     ret dest) w.

(** ** The install strategies *)

Definition pip_editable_install (project_dir : string) (extras : list string)
    : M unit :=
  let egg := project_dir +:+
             (match extras with
              | [] => ""
              | _ => "[" +:+ String.concat "," extras +:+ "]"
              end) in
  run [sys_executable; "-m"; "pip"; "install"; "-q"; "-U"; "pip"]
      None true true ;;
  run [sys_executable; "-m"; "pip"; "install"; "-e"; egg] None false true ;;
  ret tt.

Definition pip_noneditable_install (project_dir : string)
    (extras : list string) : M unit :=
  let target := "." +:+
                (match extras with
                 | [] => ""
                 | _ => "[" +:+ String.concat "," extras +:+ "]"
                 end) in
  run [sys_executable; "-m"; "pip"; "install"; "-q"; "-U"; "pip"]
      None true true ;;
  run [sys_executable; "-m"; "pip"; "install"; target]
      (Some project_dir) false true ;;
  ret tt.

Definition uv_install (project_dir : string) (editable : bool)
    (extras : list string) : M unit :=
  ensure "uv" None ;;
  if editable then pip_editable_install project_dir extras
  else
    let target := match extras with
                  | [] => "."
                  | _ => ".[" +:+ String.concat "," extras +:+ "]"
                  end in
    run [sys_executable; "-m"; "uv"; "pip"; "install"; target]
        (Some project_dir) false true ;;
    ret tt.

Definition add_to_syspath (project_dir : string) : M unit :=
  fun w =>
    let p := project_dir in
    if decide (p ∈ sys_path w) then Ok tt w
    else Ok tt (set_sys_path (p :: sys_path w) w).

Definition poetry_install (project_dir : string) (editable : bool)
    (extras : list string) : M unit :=
  ensure "poetry" None ;;
  let args := ([sys_executable; "-m"; "poetry"; "install"] ++
               (match extras with
                | [] => []
                | _ => ["--with"; String.concat "," extras]
                end))%list in
  run args (Some project_dir) false true ;;
  if editable then add_to_syspath project_dir else ret tt.

(** ** [install_repo] *)

Definition install_repo (spec : RepoSpec) (repo_dir : string) : M RunResult :=
  fun w =>
    let project_dir := resolve (host w) (joinpath repo_dir (path spec)) in
    ((fun w => Ok tt (set_environ (env spec ∪ environ w) w)) ;;
     (if decide (install spec = "none") then
        add_to_syspath project_dir
      else if decide (install spec = "pip") then
        (if editable spec then pip_editable_install
         else pip_noneditable_install) project_dir (extras spec)
      else if decide (install spec = "uv") then
        uv_install project_dir (editable spec) (extras spec)
      else if decide (install spec = "poetry") then
        poetry_install project_dir (editable spec) (extras spec)
      else
        raise (SystemExit ("unknown install mode: " +:+ install spec))) ;;
     add_to_syspath project_dir ;;
     (if truthy (post_install spec)
      then run ["bash"; "-lc"; default "" (post_install spec)]
               (Some project_dir) false true ;; ret tt
      else ret tt) ;;
     ret (mkRunResult (name spec) project_dir)) w.

(** ** Construction of a [RepoSpec] from an entry, and [main] *)

(** The [__init__] the dataclass decorator generates: a keyword that is no
    field, or a missing [name] or [url], is a [TypeError]; every other absent
    field takes its default.  Nothing else is checked. *)
Definition RepoSpec_init (e : Kwargs) : option RepoSpec :=
  match kw_unknown e, kw_name e, kw_url e with
  | [], Some n, Some u =>
      Some (mkRepoSpec n u
              (default "main" (kw_ref e))
              (default true (kw_editable e))
              (default false (kw_submodules e))
              (default [] (kw_extras e))
              (default "pip" (kw_install e))
              (default "." (kw_path e))
              (default ∅ (kw_env e))
              (default None (kw_post_install e)))
  | _, _, _ => None
  end.

(** The list comprehension of [main] over the entries: the first entry that
    is refused raises, and no list is built. *)
Fixpoint make_specs (entries : list Kwargs) : M (list RepoSpec) :=
  match entries with
  | [] => ret []
  | e :: rest =>
      match RepoSpec_init e with
      | None => raise TypeError
      | Some spec => let* specs := make_specs rest in ret (spec :: specs)
      end
  end.

Definition enable_autoreload : M unit :=
  fun w => Ok tt (set_host (autoreload (host w)) w).

(** The parsed command line; [manifest] is the document that
    [load_manifest(args.manifest)] returned. *)
Record Args := mkArgs {
  manifest : gmap string (list Kwargs);
  gh_token : string;
  mount_drive : bool
}.

(** The [if args.mount_drive:] block.  Every exception in it is caught and
    printed; [REPO_ROOT] is assigned before the [mkdir]. *)
Definition mount_drive_block : M unit :=
  fun w =>
    match colab_mount (host w) with
    | inl e => print (Line ("drive mount failed or not in colab: " +:+ e)) w
    | inr x =>
        let root := "/content/drive/MyDrive/gcolab_repos" in
        let w1 := set_REPO_ROOT root (set_host x w) in
        match mkdir x root with
        | inl e =>
            print (Line ("drive mount failed or not in colab: " +:+ e)) w1
        | inr x' =>
            print (Line ("using repo cache at " +:+ root)) (set_host x' w1)
        end
    end.

(** The body of [for spec in specs:], with the list [installed] so far. *)
Fixpoint provision (specs : list RepoSpec) (token : option string)
    (installed : list RunResult) : M (list RunResult) :=
  match specs with
  | [] => ret installed
  | spec :: rest =>
      let* repo_dir := git_clone_or_fetch spec token in
      let* r := install_repo spec repo_dir in
      provision rest token (installed ++ [r])
  end.

Definition main (args : Args) : M unit :=
  (if mount_drive args then mount_drive_block else ret tt) ;;
  let* specs := make_specs (default [] (manifest args !! "repos")) in
  let* installed :=
    provision specs
      (if decide (gh_token args = "") then None else Some (gh_token args)) [] in
  enable_autoreload ;;
  print (InstalledRepos installed) ;;
  print (Line "done. you can now import your packages.").

(** What [load_manifest] hands to [main]: [yaml.safe_load] returns a mapping
    or something else ([None] for an empty file, a scalar, a sequence), and
    only a mapping has the [get] that [main] calls on it. *)
Inductive Document :=
  | DocMapping (m : gmap string (list Kwargs))
  | DocOther.

(** [main] for whatever document was loaded.  The mount block comes before
    the document is looked at; on a document that is no mapping,
    [manifest.get] is an [AttributeError]. *)
Definition main_on (doc : Document) (gh_token : string) (mount_drive : bool)
    : M unit :=
  match doc with
  | DocMapping m => main (mkArgs m gh_token mount_drive)
  | DocOther =>
      (if mount_drive then mount_drive_block else ret tt) ;;
      raise AttributeError
  end.

(** The [if __name__ == "__main__":] block. *)
Definition script_entry (args : Args) : M unit :=
  ensure "yaml" (Some "pyyaml") ;;
  main args.

End Bootstrap.

Arguments World X : clear implicits.
Arguments Res X A : clear implicits.
Arguments M X A : clear implicits.
Arguments Ok {X A} a w.
Arguments Raise {X A} e w.

(** ** Observations used in the statements *)

(** The commands a computation spawns when started in [w]. *)
Definition issued {X} `{Host X} {A} (c : M X A) (w : World X) : list Cmd :=
  drop (length (spawned w)) (spawned (final (c w))).

(** The summaries printed so far. *)
Fixpoint reported (out : list Output) : list (list RunResult) :=
  match out with
  | [] => []
  | InstalledRepos rs :: rest => rs :: reported rest
  | Line _ :: rest => reported rest
  end.

(** [git clone ...], with or without the [-c http.extraheader=...] option. *)
Definition is_clone (c : Cmd) : bool :=
  match argv c with
  | "git" :: "clone" :: _ => true
  | "git" :: "-c" :: _ :: "clone" :: _ => true
  | _ => false
  end.

Definition is_fetch (c : Cmd) : bool :=
  match argv c with
  | "git" :: "fetch" :: _ => true
  | _ => false
  end.

(** A [git -c http.extraheader=AUTHORIZATION: bearer ...] invocation. *)
Definition has_auth_header (c : Cmd) : bool :=
  match argv c with
  | a :: b :: h :: _ =>
      bool_decide (b = "-c") && bool_decide (a = "git") &&
      String.prefix "http.extraheader=AUTHORIZATION: bearer " h
  | _ => false
  end.

(** The argument that follows [clone] in a clone command. *)
Definition url_argument (c : Cmd) : option string :=
  match argv c with
  | "git" :: "clone" :: u :: _ => Some u
  | "git" :: "-c" :: _ :: "clone" :: u :: _ => Some u
  | _ => None
  end.

(** [t in s] on Python strings. *)
Fixpoint is_substring (t s : string) : bool :=
  String.prefix t s ||
  match s with
  | EmptyString => false
  | String _ s' => is_substring t s'
  end.



(** Exit status of [c] when spawned in [w]. *)
Definition exit_status {X} `{Host X} (c : Cmd) (w : World X) : Z :=
  (exec (argv c) (cwd c) (environ w) (host w)).1.1.

(** The world once [run cmd cwd quiet] has spawned its command in [w]. *)
Definition after_run {X} `{Host X} (cmd : list string) (cwd : option string)
    (quiet : bool) (w : World X) : World X :=
  let r := exec cmd cwd (environ w) (host w) in
  mkWorld r.2 (environ w) (sys_path w) (REPO_ROOT w)
          (spawned w ++ [mkCmd cmd cwd])
          (stdout w ++
           if quiet then []
           else [Line ("$ " +:+ String.concat " " cmd); Line r.1.2]).

(** [sys.path] after [if p not in sys.path: sys.path.insert(0, p)]. *)
Definition inserted (p : string) (sp : list string) : list string :=
  if decide (p ∈ sp) then sp else p :: sp.


(** [c] takes every world to one related to it by [R], whether it returns or
    raises. *)
Definition keeps {X} `{Host X} {A} (R : relation (World X)) (c : M X A)
    : Prop :=
  ∀ w, R w (final (c w)).

(** What every step of the script respects: commands are only appended to
    the record of spawned processes (here all of them satisfy [P]), no summary
    is printed and [REPO_ROOT] stays. *)
Definition advances {X} (P : Cmd → Prop) : relation (World X) :=
  λ w w',
    (∃ cmds, spawned w' = spawned w ++ cmds ∧ Forall P cmds) ∧
    reported (stdout w') = reported (stdout w) ∧
    REPO_ROOT w' = REPO_ROOT w.

(** The same, and [sys.path] is either untouched or, when a root [p] is
    given, has had [p] inserted. *)
Definition evolves {X} (P : Cmd → Prop) (root : option string)
    : relation (World X) :=
  λ w w',
    advances P w w' ∧
    (sys_path w' = sys_path w ∨
     ∃ p, root = Some p ∧ sys_path w' = inserted p (sys_path w)).

(** The commands [git_clone_or_fetch] can spawn for [spec] with destination
    [dest]. *)
Definition sync_shape {X} `{Host X} (spec : RepoSpec)
    (gh_token : option string) (dest : string) (c : Cmd) : Prop :=
  c ∈ [mkCmd ["git"; "fetch"; "--all"; "--tags"] (Some dest);
       mkCmd (clone_cmd spec gh_token dest) None;
       mkCmd ["git"; "checkout"; ref spec] (Some dest);
       mkCmd ["git"; "submodule"; "update"; "--init"; "--recursive"]
             (Some dest)].

(** The shape of the commands the install strategies and the post-install
    hook spawn. *)
Definition installer_shape {X} `{Host X} (c : Cmd) : Prop :=
  (∃ rest, argv c = sys_executable :: "-m" :: rest) ∨
  (∃ hook, argv c = ["bash"; "-lc"; hook]).

(** ** A small host to run the script on

    Directories and importable modules are lists of names.  Cloning creates
    the destination, [pip install -q m] makes [m] importable, and every
    command that mentions the address [https://example/broken.git] exits with
    status 1. *)

Record Machine := mkMachine {
  dirs : list string;
  modules : list string
}.

Definition broken (cmd : list string) : bool :=
  bool_decide ("https://example/broken.git" ∈ cmd).

Definition demo_exec (cmd : list string) (cwd : option string)
    (env : gmap string string) (m : Machine) : Z * string * Machine :=
  if broken cmd then (1, "fatal: repository not found", m)
  else
    match cmd with
    | ["git"; "clone"; _; dest] =>
        (0, "", mkMachine (dest :: dirs m) (modules m))
    | ["git"; "-c"; _; "clone"; _; dest] =>
        (0, "", mkMachine (dest :: dirs m) (modules m))
    | [_; "-m"; "pip"; "install"; "-q"; pkg] =>
        (0, "", mkMachine (dirs m) (pkg :: modules m))
    | _ => (0, "", m)
    end.

#[export] Instance demo_host : Host Machine := {
  exec := demo_exec;
  path_exists m p := bool_decide (p ∈ dirs m);
  importable m p := bool_decide (p ∈ modules m);
  resolve m p := p;
  joinpath a b := if decide (b = ".") then a else a +:+ "/" +:+ b;
  sys_executable := "/usr/bin/python3";
  colab_mount m := inl "No module named 'google.colab'";
  mkdir m p := inr (mkMachine (p :: dirs m) (modules m));
  autoreload m := m
}.

(** A fresh interpreter on a machine with an empty repository cache. *)
Definition fresh : World Machine :=
  mkWorld (mkMachine ["/content/repos"] ["yaml"]) ∅ [] "/content/repos" [] [].

Definition entry (n u : string) : Kwargs :=
  mkKwargs (Some n) (Some u) None None None None None None None None [].

Definition entry_with (n u mode : string) : Kwargs :=
  mkKwargs (Some n) (Some u) None None None None (Some mode) None None None [].

Definition spec_a : RepoSpec :=
  mkRepoSpec "a" "https://example/a.git" "main" true false [] "none" "." ∅ None.




Definition spec_gh : RepoSpec :=
  mkRepoSpec "tools" "https://github.com/acme/tools.git" "v1" true false []
             "pip" "." ∅ None.


Definition args_of (entries : list Kwargs) (token : string) : Args :=
  mkArgs {[ "repos" := entries ]} token false.

(** ** Observations for the rest of the script *)

(** [os.environ] is as it was. *)
Definition env_kept {X} : relation (World X) :=
  λ w w', environ w' = environ w.

(** [sys.path] has only had entries put in front of it. *)
Definition path_grown {X} : relation (World X) :=
  λ w w', sys_path w `suffix_of` sys_path w'.

(** [os.environ] after the [env] of each spec was merged into it, in order. *)
Definition merged_environ (specs : list RepoSpec) (e : gmap string string)
    : gmap string string :=
  foldl (λ e spec, env spec ∪ e) e specs.

(** The cache root that [--mount-drive] switches to. *)
Definition drive_root : string := "/content/drive/MyDrive/gcolab_repos".

(** What a [SystemExit] of the script says: either that the install mode is
    unknown, or that a command failed, and then it quotes the command line of
    the process spawned last. *)
Definition names_failure {X} (e : Exn) (w : World X) : Prop :=
  (∃ mode, e = SystemExit ("unknown install mode: " +:+ mode)) ∨
  (∃ c, last (spawned w) = Some c ∧
        e = SystemExit ("command failed: " +:+ String.concat " " (argv c))).

(** Every raise of [c] is such a [SystemExit]. *)
Definition raises_named {X} `{Host X} {A} (c : M X A) : Prop :=
  ∀ w e w', c w = Raise e w' → names_failure e w'.

(** An entry that [RepoSpec] does not accept. *)
Definition refused (e : Kwargs) : Prop :=
  kw_unknown e ≠ [] ∨ kw_name e = None ∨ kw_url e = None.

(** [spec] with another value of [editable], of [url]. *)
Definition with_editable (b : bool) (spec : RepoSpec) : RepoSpec :=
  mkRepoSpec (name spec) (url spec) (ref spec) b (submodules spec)
             (extras spec) (install spec) (path spec) (env spec)
             (post_install spec).

Definition with_url (u : string) (spec : RepoSpec) : RepoSpec :=
  mkRepoSpec (name spec) u (ref spec) (editable spec) (submodules spec)
             (extras spec) (install spec) (path spec) (env spec)
             (post_install spec).

(** A [python -m pip|uv|poetry ...] command. *)
Definition tool_command {X} `{Host X} (c : Cmd) : Prop :=
  ∃ t rest, argv c = sys_executable :: "-m" :: t :: rest ∧
            t ∈ ["pip"; "uv"; "poetry"].


(** Everything printed before is still there, in front. *)
Definition out_grown {X} : relation (World X) :=
  λ w w', stdout w `prefix_of` stdout w'.

(** The two halves of [install_repo] once [spec.env] is merged: the branch
    on [spec.install], and what follows it. *)
Definition strategy_of {X} `{Host X} (spec : RepoSpec) (p : string)
    : M X unit :=
  if decide (install spec = "none") then add_to_syspath p
  else if decide (install spec = "pip") then
    (if editable spec then pip_editable_install
     else pip_noneditable_install) p (extras spec)
  else if decide (install spec = "uv") then
    uv_install p (editable spec) (extras spec)
  else if decide (install spec = "poetry") then
    poetry_install p (editable spec) (extras spec)
  else raise (SystemExit ("unknown install mode: " +:+ install spec)).

Definition finish_of {X} `{Host X} (spec : RepoSpec) (p : string)
    : M X RunResult :=
  bind (add_to_syspath p)
    (λ _, bind (if truthy (post_install spec)
                then bind (run ["bash"; "-lc"; default "" (post_install spec)]
                               (Some p) false true) (λ _, ret tt)
                else ret tt)
            (λ _, ret (mkRunResult (name spec) p))).

(** ** More of the small host *)



Definition spec_poetry : RepoSpec :=
  mkRepoSpec "p" "https://example/p.git" "main" true false ["docs"; "test"]
             "poetry" "." ∅ None.

Definition spec_hook : RepoSpec :=
  mkRepoSpec "h" "https://example/h.git" "main" true false [] "pip" "." ∅
             (Some "make assets").

Definition spec_sub : RepoSpec :=
  mkRepoSpec "s" "https://example/s.git" "v2" true true [] "none" "." ∅ None.

(** An entry with an [env] table, and one with a key that is no field. *)
Definition entry_env (n u : string) (e : gmap string string) : Kwargs :=
  mkKwargs (Some n) (Some u) None None None None (Some "none") None (Some e)
           None [].

Definition entry_typo (n u : string) : Kwargs :=
  mkKwargs (Some n) (Some u) None None None None None None None None
           ["branch"].

(** A world with a variable already set, one in which [a] is already in the
    cache, and one without [yaml]. *)
Definition with_home : World Machine :=
  mkWorld (mkMachine ["/content/repos"] ["yaml"]) {[ "HOME" := "/root" ]} []
          "/content/repos" [] [].

Definition cached : World Machine :=
  mkWorld (mkMachine ["/content/repos/a"; "/content/repos"] ["yaml"]) ∅ []
          "/content/repos" [] [].

Definition bare : World Machine :=
  mkWorld (mkMachine ["/content/repos"] []) ∅ [] "/content/repos" [] [].

(** * Verification *)

Section Proofs.

Context {X : Type} `{HostX : Host X}.
Implicit Types (w : World X) (spec : RepoSpec) (cmd : list string).

(** ** The monad *)

Lemma bind_Ok_inv {A B} (c : M X A) (k : A → M X B) w b w2 :
  bind c k w = Ok b w2 → ∃ a w1, c w = Ok a w1 ∧ k a w1 = Ok b w2.
Proof.
  unfold bind. destruct (c w) as [a w1|e w1]; [eauto | discriminate].
Qed.

Lemma bind_Raise_l {A B} (c : M X A) (k : A → M X B) w e w1 :
  c w = Raise e w1 → bind c k w = Raise e w1.
Proof. unfold bind. now intros ->. Qed.

Lemma bind_Ok_l {A B} (c : M X A) (k : A → M X B) w a w1 :
  c w = Ok a w1 → bind c k w = k a w1.
Proof. unfold bind. now intros ->. Qed.

Lemma reported_app (a b : list Output) :
  reported (a ++ b) = reported a ++ reported b.
Proof.
  induction a as [|[s|rs] a IH]; simpl; [done | done | by rewrite IH].
Qed.

(** ** [run] in one equation *)

Lemma run_eq cmd cwd quiet check w :
  run cmd cwd quiet check w =
  if check && negb (exit_status (mkCmd cmd cwd) w =? 0)
  then Raise (SystemExit ("command failed: " +:+ String.concat " " cmd))
             (after_run cmd cwd quiet w)
  else Ok ((exec cmd cwd (environ w) (host w)).1)
          (after_run cmd cwd quiet w).
Proof.
  unfold run, bind, print, ret, raise, exit_status, after_run.
  destruct quiet; simpl;
    destruct (exec cmd cwd (environ w) (host w)) as [[rc out] x]; simpl.
  - rewrite app_nil_r. by destruct (check && negb (rc =? 0)).
  - rewrite <- app_assoc. by destruct (check && negb (rc =? 0)).
Qed.

(** ** Frame properties *)

Lemma inserted_idem (p : string) (sp : list string) :
  inserted p (inserted p sp) = inserted p sp.
Proof.
  unfold inserted. destruct (decide (p ∈ sp)) as [Hin|Hin].
  - by rewrite decide_True.
  - rewrite decide_True; [done | apply list_elem_of_here].
Qed.

#[local] Instance advances_preorder (P : Cmd → Prop) :
  PreOrder (@advances X P).
Proof.
  split.
  - intros w. repeat split. exists []. by rewrite app_nil_r.
  - intros w1 w2 w3 ((c1 & Hs1 & HP1) & Hr1 & Hroot1)
                     ((c2 & Hs2 & HP2) & Hr2 & Hroot2).
    repeat split; [|congruence..].
    exists (c1 ++ c2). rewrite Hs2, Hs1, app_assoc. split; [done|].
    by apply Forall_app.
Qed.

#[local] Instance evolves_preorder (P : Cmd → Prop) (root : option string) :
  PreOrder (@evolves X P root).
Proof.
  split.
  - intros w. split; [reflexivity | by left].
  - intros w1 w2 w3 [Ha1 Hp1] [Ha2 Hp2]. split; [by etrans|].
    destruct Hp1 as [E1|(p & -> & E1)], Hp2 as [E2|(q & Hq & E2)];
      rewrite E2, E1; [by left | right; eauto | right; eauto |].
    right. exists p. split; [done|]. injection Hq as <-.
    apply inserted_idem.
Qed.

Lemma keeps_ret {A} (R : relation (World X)) `{!Reflexive R} (a : A) :
  keeps R (ret a).
Proof. intros w. simpl. reflexivity. Qed.

Lemma keeps_raise {A} (R : relation (World X)) `{!Reflexive R} (e : Exn) :
  keeps R (@raise X A e).
Proof. intros w. simpl. reflexivity. Qed.

Lemma keeps_bind {A B} (R : relation (World X)) `{!Transitive R}
    (c : M X A) (k : A → M X B) :
  keeps R c → (∀ a, keeps R (k a)) → keeps R (bind c k).
Proof.
  intros Hc Hk w. unfold bind. specialize (Hc w).
  destruct (c w) as [a w1|e w1]; simpl in *; [|done].
  etrans; [exact Hc | apply Hk].
Qed.

Lemma keeps_run (P : Cmd → Prop) root cmd cwd quiet check :
  P (mkCmd cmd cwd) → keeps (evolves P root) (run cmd cwd quiet check).
Proof.
  intros HP w. rewrite run_eq.
  assert (evolves P root w (after_run cmd cwd quiet w)) as Hev.
  { repeat split; simpl; [| |by left].
    - exists [mkCmd cmd cwd]. split; [done | by constructor].
    - rewrite reported_app. destruct quiet; simpl; by rewrite app_nil_r. }
  by destruct (check && negb (exit_status (mkCmd cmd cwd) w =? 0)).
Qed.

Lemma keeps_add_to_syspath (P : Cmd → Prop) (p : string) :
  keeps (evolves P (Some p)) (add_to_syspath p).
Proof.
  intros w. unfold add_to_syspath, evolves, advances, inserted.
  destruct (decide (p ∈ sys_path w)) as [Hin|Hin]; simpl.
  - repeat split; [exists []; by rewrite app_nil_r | by left].
  - repeat split; [exists []; by rewrite app_nil_r |].
    right. exists p. by rewrite decide_False.
Qed.

Lemma evolves_advances (P : Cmd → Prop) root w w' :
  evolves P root w w' → advances P w w'.
Proof. by intros [? _]. Qed.

Lemma evolves_None_sys_path (P : Cmd → Prop) w w' :
  evolves P None w w' → sys_path w' = sys_path w.
Proof. by intros [_ [?|(? & ? & _)]]. Qed.

Section Installers.

Variables (P : Cmd → Prop) (p : string).
Hypothesis HPpip :
  ∀ rest cwd, P (mkCmd (sys_executable :: "-m" :: "pip" :: rest) cwd).
Hypothesis HPuv :
  ∀ rest cwd, P (mkCmd (sys_executable :: "-m" :: "uv" :: rest) cwd).
Hypothesis HPpoetry :
  ∀ rest cwd, P (mkCmd (sys_executable :: "-m" :: "poetry" :: rest) cwd).
Hypothesis HPhook : ∀ hook cwd, P (mkCmd ["bash"; "-lc"; hook] cwd).

Ltac step :=
  first
    [ apply keeps_run;
      first [apply HPpip | apply HPuv | apply HPpoetry | apply HPhook]
    | apply keeps_add_to_syspath
    | apply keeps_ret; apply _
    | apply keeps_raise; apply _
    | apply keeps_bind; [apply _ | | intros ?] ].

Lemma keeps_ensure (module : string) (pip_name : option string) :
  keeps (evolves P (Some p)) (ensure module pip_name).
Proof.
  intros w. unfold ensure.
  destruct (importable (host w) module); [simpl; reflexivity|].
  revert w. repeat step.
Qed.

Lemma keeps_pip_editable_install (extras : list string) :
  keeps (evolves P (Some p)) (pip_editable_install p extras).
Proof. unfold pip_editable_install. repeat step. Qed.

Lemma keeps_pip_noneditable_install (extras : list string) :
  keeps (evolves P (Some p)) (pip_noneditable_install p extras).
Proof. unfold pip_noneditable_install. repeat step. Qed.

(** An editable install with strategy [uv] spawns pip commands only. *)
Lemma keeps_uv_install_editable (extras : list string) :
  keeps (evolves P (Some p)) (uv_install p true extras).
Proof.
  unfold uv_install. apply keeps_bind; [apply _ | apply keeps_ensure |].
  intros _. apply keeps_pip_editable_install.
Qed.

Lemma keeps_uv_install (editable : bool) (extras : list string) :
  keeps (evolves P (Some p)) (uv_install p editable extras).
Proof.
  destruct editable; [apply keeps_uv_install_editable|].
  unfold uv_install. apply keeps_bind; [apply _ | apply keeps_ensure |].
  intros _. repeat step.
Qed.

Lemma keeps_poetry_install (editable : bool) (extras : list string) :
  keeps (evolves P (Some p)) (poetry_install p editable extras).
Proof.
  unfold poetry_install. apply keeps_bind; [apply _ | apply keeps_ensure |].
  intros _. destruct editable; repeat step.
Qed.

(** The strategy selected by [spec.install], as [install_repo] selects it. *)
Lemma keeps_strategy spec :
  keeps (evolves P (Some p))
    (if decide (install spec = "none") then add_to_syspath p
     else if decide (install spec = "pip") then
       (if editable spec then pip_editable_install
        else pip_noneditable_install) p (extras spec)
     else if decide (install spec = "uv") then
       uv_install p (editable spec) (extras spec)
     else if decide (install spec = "poetry") then
       poetry_install p (editable spec) (extras spec)
     else raise (SystemExit ("unknown install mode: " +:+ install spec))).
Proof.
  repeat case_decide; [step | | apply keeps_uv_install
                       | apply keeps_poetry_install | step].
  destruct (editable spec);
    [apply keeps_pip_editable_install | apply keeps_pip_noneditable_install].
Qed.

Lemma keeps_hook spec :
  keeps (evolves P (Some p))
    (if truthy (post_install spec)
     then bind (run ["bash"; "-lc"; default "" (post_install spec)]
                    (Some p) false true) (λ _, ret tt)
     else ret tt).
Proof. destruct (truthy (post_install spec)); repeat step. Qed.

(** What follows the strategy in [install_repo]. *)
Lemma keeps_finish spec :
  keeps (evolves P (Some p))
    (bind (add_to_syspath p)
       (λ _, bind (if truthy (post_install spec)
                   then bind (run ["bash"; "-lc";
                                   default "" (post_install spec)]
                                  (Some p) false true) (λ _, ret tt)
                   else ret tt)
               (λ _, ret (mkRunResult (name spec) p)))).
Proof.
  apply keeps_bind; [apply _ | apply keeps_add_to_syspath |].
  intros _. apply keeps_bind; [apply _ | apply keeps_hook |].
  intros _. apply keeps_ret, _.
Qed.

End Installers.

Lemma keeps_set_environ (P : Cmd → Prop) root
    (e : gmap string string → gmap string string) :
  keeps (evolves P root) (λ w, Ok () (set_environ (e (environ w)) w)).
Proof.
  intros w. simpl. repeat split; [|by left]. exists []. by rewrite app_nil_r.
Qed.

Lemma install_repo_evolves (P : Cmd → Prop) spec (repo_dir : string) w :
  (∀ c, installer_shape c → P c) →
  evolves P (Some (resolve (host w) (joinpath repo_dir (path spec))))
          w (final (install_repo spec repo_dir w)).
Proof.
  intros HP. unfold install_repo.
  set (p := resolve (host w) (joinpath repo_dir (path spec))).
  assert (∀ t rest cwd, P (mkCmd (sys_executable :: "-m" :: t :: rest) cwd))
    as HPt by (intros; apply HP; left; by eexists).
  assert (∀ hook cwd, P (mkCmd ["bash"; "-lc"; hook] cwd))
    as HPh by (intros; apply HP; right; by eexists).
  refine (keeps_bind (evolves P (Some p)) _ _ _ _ w).
  { apply (keeps_set_environ P (Some p) (λ e, env spec ∪ e)). }
  intros _. apply keeps_bind; [apply _ | by apply keeps_strategy |].
  intros _. by apply keeps_finish.
Qed.

Lemma git_clone_or_fetch_evolves (P : Cmd → Prop) spec gh_token w :
  (∀ c, sync_shape spec gh_token (joinpath (REPO_ROOT w) (name spec)) c →
        P c) →
  evolves P None w (final (git_clone_or_fetch spec gh_token w)).
Proof.
  intros HP. unfold git_clone_or_fetch, sync_shape in *.
  set (dest := joinpath (REPO_ROOT w) (name spec)) in *.
  refine (keeps_bind (evolves P None) _ _ _ _ w).
  { destruct (path_exists (host w) dest);
      apply keeps_run, HP; set_solver. }
  intros _. apply keeps_bind; [apply _ | apply keeps_run, HP; set_solver |].
  intros _. apply keeps_bind; [apply _ | | intros _; apply keeps_ret, _].
  destruct (submodules spec); [|apply keeps_ret, _].
  apply keeps_bind; [apply _ | apply keeps_run, HP; set_solver |].
  intros _; apply keeps_ret, _.
Qed.

Lemma add_to_syspath_eq (p : string) w :
  ∃ w', add_to_syspath p w = Ok tt w' ∧
        sys_path w' = inserted p (sys_path w) ∧
        spawned w' = spawned w ∧ host w' = host w ∧ stdout w' = stdout w.
Proof.
  unfold add_to_syspath, inserted.
  destruct (decide (p ∈ sys_path w)); eexists; (split; [reflexivity|done]).
Qed.

(** A dispatch that returns has inserted the project root, and reports the
    spec's name with that root. *)
Lemma install_repo_Ok_inv spec (repo_dir : string) w r w1 :
  install_repo spec repo_dir w = Ok r w1 →
  let p := resolve (host w) (joinpath repo_dir (path spec)) in
  r = mkRunResult (name spec) p ∧ sys_path w1 = inserted p (sys_path w).
Proof.
  intros H p. unfold install_repo in H. fold p in H.
  apply bind_Ok_inv in H as ([] & wa & Ha & H).
  injection Ha as <-.
  apply bind_Ok_inv in H as ([] & wb & Hb & H).
  pose proof (keeps_strategy (λ _, True) p (λ _ _, I) (λ _ _, I) (λ _ _, I)
                spec (set_environ (env spec ∪ environ w) w)) as [_ Hpb].
  rewrite Hb in Hpb. simpl in Hpb.
  apply bind_Ok_inv in H as ([] & wc & Hc & H).
  destruct (add_to_syspath_eq p wb) as (wc' & Hc' & Hpc & _).
  rewrite Hc in Hc'. injection Hc' as <-.
  apply bind_Ok_inv in H as ([] & wd & Hd & H).
  pose proof (keeps_hook (λ _, True) p (λ _ _, I) spec wc) as [_ Hpd].
  rewrite Hd in Hpd. simpl in Hpd.
  injection H as <- <-. split; [done|].
  assert (sys_path wc = inserted p (sys_path w)) as Ec.
  { rewrite Hpc. destruct Hpb as [->|(q & [= <-] & ->)];
      [done | apply inserted_idem]. }
  destruct Hpd as [->|(q & [= <-] & ->)]; [done|].
  rewrite Ec. apply inserted_idem.
Qed.

(** ** The loop of [main] *)


Lemma provision_advances (P : Cmd → Prop) (specs : list RepoSpec) token acc w :
  (∀ c, installer_shape c → P c) →
  (∀ spec dest c, sync_shape spec token dest c → P c) →
  advances P w (final (provision specs token acc w)).
Proof.
  intros HPi HPs. revert acc w.
  induction specs as [|spec rest IH]; intros acc w; simpl; [reflexivity|].
  unfold bind.
  pose proof (git_clone_or_fetch_evolves P spec token w (HPs spec _)) as Hs.
  apply evolves_advances in Hs.
  destruct (git_clone_or_fetch spec token w) as [d wa|e wa]; [|done].
  pose proof (install_repo_evolves P spec d wa HPi) as Hi.
  apply evolves_advances in Hi. simpl in Hs.
  destruct (install_repo spec d wa) as [r wb|e wb]; simpl in Hi;
    [|by etrans].
  etrans; [exact Hs|]. etrans; [exact Hi|]. apply IH.
Qed.

Lemma git_clone_or_fetch_Ok_inv spec (gh_token : option string) w d w' :
  git_clone_or_fetch spec gh_token w = Ok d w' →
  d = joinpath (REPO_ROOT w) (name spec).
Proof.
  unfold git_clone_or_fetch. intros H.
  apply bind_Ok_inv in H as (? & ? & _ & H).
  apply bind_Ok_inv in H as (? & ? & _ & H).
  apply bind_Ok_inv in H as (? & ? & _ & H).
  by injection H as <- _.
Qed.

Lemma foldl_inserted_fresh (ps sp : list string) :
  NoDup ps → (∀ p, p ∈ ps → p ∉ sp) →
  foldl (λ sp p, inserted p sp) sp ps = reverse ps ++ sp.
Proof.
  intros Hnd. revert sp. induction Hnd as [|p ps Hp Hnd IH]; intros sp Hsp.
  - done.
  - simpl. unfold inserted at 2.
    rewrite decide_False by (apply Hsp, list_elem_of_here).
    rewrite IH, reverse_cons, <- app_assoc; [done|].
    intros q Hq. rewrite not_elem_of_cons. split.
    + intros ->. contradiction.
    + by apply Hsp, list_elem_of_further.
Qed.

(** What a completed loop has produced: a record per spec, in order, named
    after it and carrying its resolved project root, and a search path into
    which these roots were inserted one after the other. *)
Lemma provision_Ok_inv (specs : list RepoSpec) token acc w res w' :
  provision specs token acc w = Ok res w' →
  ∃ rs, res = acc ++ rs ∧
        Forall2 (λ spec r,
                   res_name r = name spec ∧
                   ∃ x, res_path r =
                        resolve x (joinpath (joinpath (REPO_ROOT w) (name spec))
                                            (path spec)))
                specs rs ∧
        sys_path w' = foldl (λ sp p, inserted p sp) (sys_path w)
                            (res_path <$> rs).
Proof.
  revert acc w. induction specs as [|spec rest IH]; intros acc w; simpl.
  - intros [= <- <-]. exists []. by rewrite app_nil_r.
  - intros H. apply bind_Ok_inv in H as (d & wa & Hs & H).
    apply bind_Ok_inv in H as (r & wb & Hr & H).
    pose proof (git_clone_or_fetch_evolves (λ _, True) spec token w
                  (λ _ _, I)) as [(_ & _ & Hroot_a) _].
    pose proof (install_repo_evolves (λ _, True) spec d wa (λ _ _, I))
      as [(_ & _ & Hroot_b) _].
    rewrite Hs in Hroot_a. rewrite Hr in Hroot_b. simpl in *.
    pose proof (git_clone_or_fetch_evolves (λ _, True) spec token w
                  (λ _ _, I)) as Hev.
    rewrite Hs in Hev. apply evolves_None_sys_path in Hev. simpl in Hev.
    apply git_clone_or_fetch_Ok_inv in Hs as ->.
    apply install_repo_Ok_inv in Hr as [-> Hsp].
    apply IH in H as (rs & -> & HF & Hfold).
    eexists (_ :: rs). rewrite <- app_assoc. split; [done|]. split.
    + constructor; [split; [done | by eexists]|].
      by rewrite Hroot_b, Hroot_a in HF.
    + rewrite Hfold, Hsp, Hev. done.
Qed.

(** ** The normalizer *)

(** C8: an entry that gives only [name] and [url] is normalized to a
    [RepoSpec] with ref "main", editable true, submodules false, no extras,
    install "pip", path ".", an empty env and no post_install. *)
Theorem defaults_of_minimal_entry (n u : string) :
  RepoSpec_init (mkKwargs (Some n) (Some u) None None None None None None
                          None None [])
  = Some (mkRepoSpec n u "main" true false [] "pip" "." ∅ None).
Proof. reflexivity. Qed.

Lemma make_specs_pure (entries : list Kwargs) w :
  make_specs entries w = Raise TypeError w ∨
  ∃ specs, make_specs entries w = Ok specs w ∧
           Forall2 (λ e spec, RepoSpec_init e = Some spec) entries specs.
Proof.
  induction entries as [|e rest IH]; simpl.
  - right. by exists [].
  - destruct (RepoSpec_init e) as [spec|] eqn:E; [|by left].
    unfold bind. destruct IH as [->|(specs & -> & Hm)]; [by left|].
    right. exists (spec :: specs). split; [done|]. by constructor.
Qed.

Lemma mount_drive_block_quiet w :
  ∃ w', mount_drive_block w = Ok tt w' ∧ spawned w' = spawned w ∧
        sys_path w' = sys_path w ∧ environ w' = environ w ∧
        reported (stdout w') = reported (stdout w).
Proof.
  unfold mount_drive_block, print.
  destruct (colab_mount (host w)) as [e|x]; simpl.
  - eexists; repeat split; simpl. rewrite reported_app; simpl.
    by rewrite app_nil_r.
  - destruct (mkdir x _) as [e|x']; simpl;
      eexists; repeat split; simpl; rewrite reported_app; simpl;
      by rewrite app_nil_r.
Qed.

Lemma mount_prelude_quiet (b : bool) w :
  ∃ w', (if b then mount_drive_block else ret tt) w = Ok tt w' ∧
        spawned w' = spawned w ∧ sys_path w' = sys_path w ∧
        environ w' = environ w ∧
        reported (stdout w') = reported (stdout w).
Proof.
  destruct b; [apply mount_drive_block_quiet | by exists w].
Qed.

(** Started as a script on a machine where [yaml] can be imported, the
    program is [main]. *)
Lemma script_entry_with_yaml (args : Args) w :
  importable (host w) "yaml" = true → script_entry args w = main args w.
Proof. intros Hy. unfold script_entry, bind, ensure. by rewrite Hy. Qed.

(** On a mapping without [repos], or with an empty [repos] list, [main]
    returns normally, spawns no command and prints an empty summary. *)
Lemma main_without_repos (args : Args) w :
  manifest args !! "repos" = None ∨ manifest args !! "repos" = Some [] →
  ∃ w', main args w = Ok tt w' ∧ spawned w' = spawned w ∧
        issued (main args) w = [] ∧
        reported (stdout w') = reported (stdout w) ++ [[]].
Proof.
  intros Hrepos.
  assert (default [] (manifest args !! "repos") = []) as Hd
    by (destruct Hrepos as [-> | ->]; reflexivity).
  destruct (mount_prelude_quiet (mount_drive args) w)
    as (w0 & Hm & Hs & _ & _ & Hr).
  unfold issued, main. rewrite Hd.
  rewrite (bind_Ok_l _ _ _ _ _ Hm). simpl.
  eexists. split; [reflexivity|]. simpl.
  rewrite Hs, drop_all. repeat split.
  rewrite !reported_app, Hr. simpl. by rewrite app_nil_r.
Qed.

(** C10, as the code has it: on a document that is a mapping without a
    [repos] key, or with an empty [repos] list, the run returns normally,
    spawns no command and prints an empty summary; on a document that is no
    mapping (an empty file is loaded as [None]) it raises an
    [AttributeError], having spawned no command and printed no summary. *)
Theorem run_without_repos (doc : Document) (gh_token : string)
    (mount_drive : bool) w :
  (∀ m, doc = DocMapping m →
        m !! "repos" = None ∨ m !! "repos" = Some [] →
        ∃ w', main_on doc gh_token mount_drive w = Ok tt w' ∧
              spawned w' = spawned w ∧
              issued (main_on doc gh_token mount_drive) w = [] ∧
              reported (stdout w') = reported (stdout w) ++ [[]]) ∧
  (doc = DocOther →
   ∃ w', main_on doc gh_token mount_drive w = Raise AttributeError w' ∧
         spawned w' = spawned w ∧
         issued (main_on doc gh_token mount_drive) w = [] ∧
         reported (stdout w') = reported (stdout w)).
Proof.
  split.
  - intros m -> Hrepos.
    apply (main_without_repos (mkArgs m gh_token mount_drive) w Hrepos).
  - intros ->.
    destruct (mount_prelude_quiet mount_drive w)
      as (w0 & Hm & Hs & _ & _ & Hr).
    assert (main_on DocOther gh_token mount_drive w = Raise AttributeError w0)
      as Hmain.
    { unfold main_on. by rewrite (bind_Ok_l _ _ _ _ _ Hm). }
    exists w0. split; [done|]. split; [done|]. split; [|done].
    unfold issued. rewrite Hmain. simpl. by rewrite Hs, drop_all.
Qed.

Lemma make_specs_refuses (entries : list Kwargs) (e : Kwargs) w :
  e ∈ entries → RepoSpec_init e = None →
  make_specs entries w = Raise TypeError w.
Proof.
  intros Hin He. induction entries as [|e' rest IH]; [by inversion Hin|].
  simpl. destruct (RepoSpec_init e') as [spec|] eqn:E; [|done].
  apply elem_of_cons in Hin as [->|Hin]; [congruence|].
  unfold bind. by rewrite (IH Hin).
Qed.



(** ** Fail-fast and the summary *)

Lemma main_Ok_inv (args : Args) w w' :
  main args w = Ok tt w' →
  ∃ w0 specs installed w1,
    (if mount_drive args then mount_drive_block else ret tt) w = Ok tt w0 ∧
    spawned w0 = spawned w ∧ sys_path w0 = sys_path w ∧
    reported (stdout w0) = reported (stdout w) ∧
    make_specs (default [] (manifest args !! "repos")) w0 = Ok specs w0 ∧
    provision specs (if decide (gh_token args = "") then None
                     else Some (gh_token args)) [] w0 = Ok installed w1 ∧
    sys_path w' = sys_path w1 ∧ spawned w' = spawned w1 ∧
    stdout w' = stdout w1 ++ [InstalledRepos installed;
                              Line "done. you can now import your packages."].
Proof.
  intros Hmain. unfold main in Hmain.
  apply bind_Ok_inv in Hmain as ([] & w0 & Hm & Hmain).
  destruct (mount_prelude_quiet (mount_drive args) w)
    as (w0' & Hm' & Hs & Hp & _ & Hr).
  rewrite Hm in Hm'. injection Hm' as <-.
  apply bind_Ok_inv in Hmain as (specs & w0' & Hspecs & Hmain).
  destruct (make_specs_pure (default [] (manifest args !! "repos")) w0)
    as [Hraise|(specs' & Hok & _)]; [congruence|].
  rewrite Hok in Hspecs. injection Hspecs as <- <-.
  apply bind_Ok_inv in Hmain as (installed & w1 & Hprov & Hmain).
  injection Hmain as <-.
  exists w0, specs', installed, w1. simpl.
  rewrite <- app_assoc. by repeat split.
Qed.


(** ** The commands of one synchronization *)

(** The first command of a synchronization: a fetch in an existing
    destination, a clone otherwise. *)
Lemma issued_git_clone_or_fetch spec (gh_token : option string) w :
  let dest := joinpath (REPO_ROOT w) (name spec) in
  let first :=
    if path_exists (host w) dest
    then mkCmd ["git"; "fetch"; "--all"; "--tags"] (Some dest)
    else mkCmd (clone_cmd spec gh_token dest) None in
  let checkout := mkCmd ["git"; "checkout"; ref spec] (Some dest) in
  let w1 := after_run (argv first) (cwd first) false w in
  issued (git_clone_or_fetch spec gh_token) w =
  first ::
    (if exit_status first w =? 0 then
       checkout ::
         (if (exit_status checkout w1 =? 0) && submodules spec
          then [mkCmd ["git"; "submodule"; "update"; "--init"; "--recursive"]
                      (Some dest)]
          else [])
     else []).
Proof.
  intros dest first checkout w1. unfold issued, git_clone_or_fetch, bind.
  fold dest. subst w1 first.
  destruct (path_exists (host w) dest); rewrite run_eq; simpl;
    (destruct (exit_status _ w =? 0); simpl;
     [| by rewrite drop_app_length]);
    rewrite run_eq; simpl; fold checkout;
    (destruct (exit_status checkout _ =? 0); simpl;
     [| by rewrite <- app_assoc, drop_app_length]);
    (destruct (submodules spec); simpl;
     [| by rewrite <- app_assoc, drop_app_length]);
    rewrite run_eq; simpl;
    (destruct (exit_status _ _ =? 0); simpl;
     by rewrite <- !app_assoc, drop_app_length).
Qed.

(** C5: a synchronization whose destination does not exist spawns one clone
    and no fetch, one whose destination exists spawns no clone and one fetch;
    either way, once that first command has exited with status 0, the next
    command is the checkout of the spec's ref in the destination. *)
Theorem sync_clones_or_fetches spec (gh_token : option string) w :
  let dest := joinpath (REPO_ROOT w) (name spec) in
  let cmds := issued (git_clone_or_fetch spec gh_token) w in
  (path_exists (host w) dest = false →
   cmds !! 0%nat = Some (mkCmd (clone_cmd spec gh_token dest) None) ∧
   length (List.filter is_clone cmds) = 1%nat ∧
   length (List.filter is_fetch cmds) = 0%nat) ∧
  (path_exists (host w) dest = true →
   cmds !! 0%nat =
     Some (mkCmd ["git"; "fetch"; "--all"; "--tags"] (Some dest)) ∧
   length (List.filter is_clone cmds) = 0%nat ∧
   length (List.filter is_fetch cmds) = 1%nat) ∧
  (∀ c, cmds !! 0%nat = Some c → exit_status c w = 0 →
        cmds !! 1%nat = Some (mkCmd ["git"; "checkout"; ref spec] (Some dest))).
Proof.
  intros dest cmds. subst cmds. rewrite issued_git_clone_or_fetch. fold dest.
  split; [|split].
  - intros ->. split; [done|].
    assert (is_clone (mkCmd (clone_cmd spec gh_token dest) None) = true
            ∧ is_fetch (mkCmd (clone_cmd spec gh_token dest) None) = false)
      as [Hc Hf] by (unfold clone_cmd; by destruct (_ && _)).
    cbn [List.filter]. rewrite Hc, Hf.
    destruct (exit_status _ w =? 0); [|done].
    by destruct (_ && _).
  - intros ->. split; [done|]. destruct (exit_status _ w =? 0); [|done].
    by destruct (_ && _).
  - intros c [= <-] Hst. by rewrite Hst.
Qed.

(** ** The access token *)

Lemma advances_issued {A} (P : Cmd → Prop) (c : M X A) w :
  advances P w (final (c w)) → Forall P (issued c w).
Proof.
  intros ((cmds & Hs & HP) & _). unfold issued.
  by rewrite Hs, drop_app_length.
Qed.

Lemma main_spawns (P : Cmd → Prop) (args : Args) w :
  (∀ c, installer_shape c → P c) →
  (∀ spec dest c,
     sync_shape spec (if decide (gh_token args = "") then None
                      else Some (gh_token args)) dest c → P c) →
  Forall P (issued (main args) w).
Proof.
  intros HPi HPs. unfold issued, main.
  destruct (mount_prelude_quiet (mount_drive args) w) as (w0 & Hm & Hs & _).
  rewrite (bind_Ok_l _ _ _ _ _ Hm), <- Hs.
  destruct (make_specs_pure (default [] (manifest args !! "repos")) w0)
    as [Hr|(specs & Hok & _)].
  - rewrite (bind_Raise_l _ _ _ _ _ Hr). simpl. by rewrite drop_all.
  - rewrite (bind_Ok_l _ _ _ _ _ Hok).
    pose proof (provision_advances P specs _ [] w0 HPi HPs)
      as ((cmds & Hc & HP) & _).
    unfold bind.
    destruct (provision specs _ [] w0) as [installed w1|e w1]; simpl in *;
      by rewrite Hc, drop_app_length.
Qed.

Lemma installer_no_auth_header (c : Cmd) :
  installer_shape c → has_auth_header c = false.
Proof.
  unfold has_auth_header.
  intros [(rest & ->)|(hook & ->)]; [by destruct rest | done].
Qed.

Lemma sync_no_auth_header spec (gh_token : option string) (dest : string)
    (c : Cmd) :
  truthy gh_token = false →
  sync_shape spec gh_token dest c → has_auth_header c = false.
Proof.
  unfold sync_shape, clone_cmd. intros ->. simpl.
  rewrite !elem_of_cons, elem_of_nil.
  intros [->|[->|[->|[->|[]]]]]; reflexivity.
Qed.

(** C9: an empty access token is no token.  With [--gh-token] empty (its
    default when [GH_TOKEN] is unset) no command that [main] spawns carries
    the authorization header; [git_clone_or_fetch] given the empty string
    behaves as given [None], whatever the url: its clone command is the
    plain [git clone url dest]. *)
Theorem empty_token_is_no_token (args : Args) spec (dest : string) w :
  (gh_token args = "" →
   Forall (λ c, has_auth_header c = false) (issued (main args) w)) ∧
  Forall (λ c, has_auth_header c = false)
         (issued (git_clone_or_fetch spec (Some "")) w) ∧
  clone_cmd spec (Some "") dest = ["git"; "clone"; url spec; dest] ∧
  git_clone_or_fetch spec (Some "") w = git_clone_or_fetch spec None w ∧
  (path_exists (host w) (joinpath (REPO_ROOT w) (name spec)) = false →
   issued (git_clone_or_fetch spec (Some "")) w !! 0%nat =
     Some (mkCmd ["git"; "clone"; url spec;
                  joinpath (REPO_ROOT w) (name spec)] None)).
Proof.
  split; [|split; [|split; [|split]]].
  - intros Htok. apply main_spawns; [apply installer_no_auth_header|].
    intros s d c. rewrite Htok. simpl. by apply sync_no_auth_header.
  - apply (advances_issued (λ c, has_auth_header c = false)).
    eapply evolves_advances, git_clone_or_fetch_evolves.
    intros c. by apply sync_no_auth_header.
  - reflexivity.
  - reflexivity.
  - intros Hex. rewrite issued_git_clone_or_fetch. by rewrite Hex.
Qed.

(** C7, as the code has it: for a url that starts with the GitHub prefix
    and a non-empty token, the clone command is
    [git -c http.extraheader=AUTHORIZATION: bearer TOKEN clone URL DEST]; its
    url argument is the spec's url, unchanged, so that the token occurs in it
    only if it occurs in the spec's url. *)
Theorem token_goes_in_header spec (tok : string) w :
  let dest := joinpath (REPO_ROOT w) (name spec) in
  tok ≠ "" →
  String.prefix "https://github.com/" (url spec) = true →
  path_exists (host w) dest = false →
  ∃ c, issued (git_clone_or_fetch spec (Some tok)) w !! 0%nat = Some c ∧
       argv c = ["git"; "-c";
                 "http.extraheader=AUTHORIZATION: bearer " +:+ tok;
                 "clone"; url spec; dest] ∧
       has_auth_header c = true ∧
       url_argument c = Some (url spec) ∧
       (is_substring tok (url spec) = false →
        ∃ u, url_argument c = Some u ∧ is_substring tok u = false).
Proof.
  intros dest Htok Hurl Hex. rewrite issued_git_clone_or_fetch. fold dest.
  rewrite Hex. unfold clone_cmd. rewrite Hurl.
  destruct tok as [|a tok]; [done|]. cbn [truthy andb default].
  eexists. split; [reflexivity|]. repeat split.
  intros Hsub. exists (url spec). by split.
Qed.

(** ** The module search path *)

(** C2, as the code has it: a project root is put at the front of
    [sys.path] unless it is already there, one repository after the other in
    manifest order.  Of the roots a run inserts, the one inserted later
    therefore stands ahead of those inserted earlier: when the roots are
    distinct and none was on the path before, the path after the run is the
    roots in reverse manifest order, followed by the old path. *)
Theorem later_insertion_takes_priority (args : Args) w w' :
  main args w = Ok tt w' →
  ∃ installed,
    reported (stdout w') = reported (stdout w) ++ [installed] ∧
    sys_path w' =
      foldl (λ sp p, if decide (p ∈ sp) then sp else p :: sp)
            (sys_path w) (res_path <$> installed) ∧
    (NoDup (res_path <$> installed) →
     (∀ r, r ∈ installed → res_path r ∉ sys_path w) →
     sys_path w' = reverse (res_path <$> installed) ++ sys_path w).
Proof.
  intros Hmain.
  apply main_Ok_inv in Hmain
    as (w0 & specs & installed & w1 & _ & _ & Hp0 & Hr & _ & Hp & Hp1 & _
        & Hout).
  set (token := if decide (gh_token args = "") then None
                else Some (gh_token args)) in Hp.
  pose proof (provision_advances (λ _, True) specs token [] w0
                (λ _ _, I) (λ _ _ _ _, I)) as (_ & Hrep & _).
  rewrite Hp in Hrep. simpl in Hrep.
  apply provision_Ok_inv in Hp as (rs & -> & _ & Hfold). simpl.
  exists rs. rewrite Hp1, Hfold, Hp0. split; [|split].
  - rewrite Hout, reported_app, Hrep, Hr. done.
  - done.
  - intros Hnd Hfresh. apply foldl_inserted_fresh; [done|].
    intros p (r & -> & Hr')%list_elem_of_fmap. by apply Hfresh.
Qed.






(** ** The uv strategy *)

Lemma issued_bind {A B} (c : M X A) (k : A → M X B) w :
  advances (λ _, True) w (final (c w)) →
  (∀ a w1, c w = Ok a w1 → advances (λ _, True) w1 (final (k a w1))) →
  issued (bind c k) w =
  issued c w ++ match c w with
                | Ok a w1 => issued (k a) w1
                | Raise _ _ => []
                end.
Proof.
  intros ((c1 & Hc & _) & _) Hk. unfold issued, bind.
  destruct (c w) as [a w1|e w1]; simpl in *; [|by rewrite app_nil_r].
  destruct (Hk a w1 eq_refl) as ((c2 & Hc2 & _) & _).
  rewrite Hc2, Hc, !drop_app_length, <- app_assoc.
  by rewrite drop_app_length.
Qed.






(** * The rest of the script *)

(** ** What every step leaves alone *)

Section Frame.

Variable R : relation (World X).
Context `{!PreOrder R}.
Hypothesis R_run : ∀ cmd cwd quiet w, R w (after_run cmd cwd quiet w).
Hypothesis R_insert :
  ∀ p w, p ∉ sys_path w → R w (set_sys_path (p :: sys_path w) w).

Lemma frame_run cmd cwd quiet check : keeps R (run cmd cwd quiet check).
Proof.
  intros w. rewrite run_eq. destruct (check && _); apply R_run.
Qed.

Lemma frame_add_to_syspath (p : string) : keeps R (add_to_syspath p).
Proof.
  intros w. unfold add_to_syspath.
  destruct (decide (p ∈ sys_path w)); simpl; [reflexivity | by apply R_insert].
Qed.

Ltac frame :=
  repeat first
    [ apply frame_run
    | apply frame_add_to_syspath
    | apply keeps_ret; apply _
    | apply keeps_raise; apply _
    | apply keeps_bind; [apply _ | | intros ?] ].

Lemma frame_ensure (module : string) (pip_name : option string) :
  keeps R (ensure module pip_name).
Proof.
  intros w. unfold ensure.
  destruct (importable (host w) module); [simpl; reflexivity|].
  revert w. frame.
Qed.

Lemma frame_git_clone_or_fetch spec (gh_token : option string) :
  keeps R (git_clone_or_fetch spec gh_token).
Proof.
  intros w. unfold git_clone_or_fetch.
  refine (keeps_bind R _ _ _ _ w).
  { destruct (path_exists (host w) _); apply frame_run. }
  intros _. apply keeps_bind; [apply _ | apply frame_run |].
  intros _. apply keeps_bind; [apply _ | | intros _; apply keeps_ret, _].
  destruct (submodules spec); frame.
Qed.

Lemma frame_strategy_and_finish spec (p : string) :
  keeps R
    (bind
       (if decide (install spec = "none") then add_to_syspath p
        else if decide (install spec = "pip") then
          (if editable spec then pip_editable_install
           else pip_noneditable_install) p (extras spec)
        else if decide (install spec = "uv") then
          uv_install p (editable spec) (extras spec)
        else if decide (install spec = "poetry") then
          poetry_install p (editable spec) (extras spec)
        else raise (SystemExit ("unknown install mode: " +:+ install spec)))
       (λ _, bind (add_to_syspath p)
               (λ _, bind (if truthy (post_install spec)
                           then bind (run ["bash"; "-lc";
                                           default "" (post_install spec)]
                                          (Some p) false true) (λ _, ret tt)
                           else ret tt)
                       (λ _, ret (mkRunResult (name spec) p))))).
Proof.
  apply keeps_bind; [apply _ | |].
  - repeat case_decide; [frame | | | | frame].
    + destruct (editable spec);
        unfold pip_editable_install, pip_noneditable_install; frame.
    + unfold uv_install, pip_editable_install.
      apply keeps_bind; [apply _ | apply frame_ensure |].
      intros _. destruct (editable spec); frame.
    + unfold poetry_install.
      apply keeps_bind; [apply _ | apply frame_ensure |].
      intros _. destruct (editable spec); frame.
  - intros _. apply keeps_bind; [apply _ | apply frame_add_to_syspath |].
    intros _. destruct (truthy (post_install spec)); frame.
Qed.

(** A dispatch, from the world in which [spec.env] has been merged. *)
Lemma frame_install_repo spec (repo_dir : string) w :
  R (set_environ (env spec ∪ environ w) w)
    (final (install_repo spec repo_dir w)).
Proof.
  apply (frame_strategy_and_finish spec
           (resolve (host w) (joinpath repo_dir (path spec)))
           (set_environ (env spec ∪ environ w) w)).
Qed.

End Frame.

#[local] Instance env_kept_preorder : PreOrder (@env_kept X).
Proof.
  split; [by intros w | intros w1 w2 w3; unfold env_kept; congruence].
Qed.

#[local] Instance path_grown_preorder : PreOrder (@path_grown X).
Proof.
  split.
  - intros w. unfold path_grown. reflexivity.
  - intros w1 w2 w3. unfold path_grown. intros H1 H2. by etrans.
Qed.

Lemma env_kept_run cmd cwd quiet w :
  env_kept w (after_run cmd cwd quiet w).
Proof. reflexivity. Qed.

Lemma env_kept_insert (p : string) w :
  p ∉ sys_path w → env_kept w (set_sys_path (p :: sys_path w) w).
Proof. reflexivity. Qed.

Lemma path_grown_run cmd cwd quiet w :
  path_grown w (after_run cmd cwd quiet w).
Proof. unfold path_grown. reflexivity. Qed.

Lemma path_grown_insert (p : string) w :
  p ∉ sys_path w → path_grown w (set_sys_path (p :: sys_path w) w).
Proof. intros _. unfold path_grown. simpl. by apply suffix_cons_r. Qed.

(** ** The shape of a run *)

(** [main] ends either where the construction of the specs raised, or where
    the loop ended, give or take the summary it then prints. *)
Lemma main_final (args : Args) w :
  ∃ w0,
    (if mount_drive args then mount_drive_block else ret tt) w = Ok tt w0 ∧
    ((main args w = Raise TypeError w0 ∧
      ∃ e, e ∈ default [] (manifest args !! "repos") ∧
           RepoSpec_init e = None) ∨
     ∃ specs,
       Forall2 (λ e spec, RepoSpec_init e = Some spec)
               (default [] (manifest args !! "repos")) specs ∧
       let r := provision specs
                  (if decide (gh_token args = "") then None
                   else Some (gh_token args)) [] w0 in
       match r with
       | Raise e w1 => main args w = Raise e w1
       | Ok installed w1 =>
           main args w =
             Ok tt (mkWorld (autoreload (host w1)) (environ w1) (sys_path w1)
                      (REPO_ROOT w1) (spawned w1)
                      (stdout w1 ++
                       [InstalledRepos installed;
                        Line "done. you can now import your packages."]))
       end).
Proof.
  destruct (mount_prelude_quiet (mount_drive args) w) as (w0 & Hm & _).
  exists w0. split; [done|]. unfold main. rewrite (bind_Ok_l _ _ _ _ _ Hm).
  destruct (make_specs_pure (default [] (manifest args !! "repos")) w0)
    as [Hr|(specs & Hok & HF)].
  - left. split; [by apply bind_Raise_l|].
    clear Hm. induction (default [] (manifest args !! "repos"))
      as [|e rest IH]; simpl in Hr; [discriminate|].
    destruct (RepoSpec_init e) as [spec|] eqn:E.
    + unfold bind in Hr.
      destruct (make_specs rest w0) as [specs wa|ex wa] eqn:Hrest;
        [discriminate|].
      injection Hr as -> ->. destruct (IH eq_refl) as (e' & Hin & He').
      exists e'. split; [by apply list_elem_of_further | done].
    + exists e. split; [apply list_elem_of_here | done].
  - right. exists specs. split; [done|]. rewrite (bind_Ok_l _ _ _ _ _ Hok).
    unfold bind. destruct (provision specs _ [] w0) as [installed w1|e w1];
      simpl; [|done].
    unfold print. simpl. by rewrite <- app_assoc.
Qed.

(** ** The process environment *)

Lemma install_repo_environ spec (repo_dir : string) w :
  environ (final (install_repo spec repo_dir w)) = env spec ∪ environ w.
Proof. apply (frame_install_repo env_kept env_kept_run env_kept_insert). Qed.


Lemma provision_environ (specs : list RepoSpec) token acc w res w' :
  provision specs token acc w = Ok res w' →
  environ w' = merged_environ specs (environ w).
Proof.
  revert acc w. induction specs as [|spec rest IH]; intros acc w; simpl.
  - by intros [= _ <-].
  - intros H. apply bind_Ok_inv in H as (d & wa & Hs & H).
    apply bind_Ok_inv in H as (r & wb & Hr & H).
    pose proof (frame_git_clone_or_fetch env_kept env_kept_run
                  spec token w) as Ha.
    rewrite Hs in Ha. unfold env_kept in Ha. simpl in Ha.
    pose proof (install_repo_environ spec d wa) as Hb.
    rewrite Hr in Hb. simpl in Hb.
    apply IH in H. by rewrite H, Hb, Ha.
Qed.

(** X2: the [env] tables of the entries accumulate over a run: when [main]
    returns, [os.environ] is the old table with the [env] of every spec
    merged over it in manifest order, later entries overriding earlier
    ones. *)
Theorem environ_accumulates (args : Args) w w' :
  main args w = Ok tt w' →
  ∃ specs,
    Forall2 (λ e spec, RepoSpec_init e = Some spec)
            (default [] (manifest args !! "repos")) specs ∧
    environ w' = foldl (λ e spec, env spec ∪ e) (environ w) specs.
Proof.
  intros Hmain.
  destruct (mount_prelude_quiet (mount_drive args) w)
    as (w0' & Hm' & _ & _ & He & _).
  destruct (main_final args w) as (w0 & Hm & [[Hr _]|(specs & HF & Hp)]);
    [congruence|].
  rewrite Hm in Hm'. injection Hm' as <-.
  exists specs. split; [done|]. simpl in Hp.
  destruct (provision specs _ [] w0) as [installed w1|e w1] eqn:Hprov;
    [|congruence].
  rewrite Hmain in Hp. injection Hp as ->. simpl.
  apply provision_environ in Hprov. by rewrite Hprov, He.
Qed.

(** ** The search path and the cache root over a whole run *)

Lemma provision_path_grown (specs : list RepoSpec) token acc w :
  path_grown w (final (provision specs token acc w)).
Proof.
  revert acc w. induction specs as [|spec rest IH]; intros acc w; simpl.
  - reflexivity.
  - unfold bind.
    pose proof (frame_git_clone_or_fetch path_grown path_grown_run
                  spec token w) as Ha.
    destruct (git_clone_or_fetch spec token w) as [d wa|e wa]; [|done].
    pose proof (frame_install_repo path_grown path_grown_run
                  path_grown_insert spec d wa) as Hb.
    simpl in Ha.
    destruct (install_repo spec d wa) as [r wb|e wb]; simpl in Hb.
    + etrans; [exact Ha|]. etrans; [exact Hb|]. apply IH.
    + etrans; [exact Ha | exact Hb].
Qed.

(** X3: a run only ever puts entries in front of [sys.path]: however [main]
    ends, the path it started with is a suffix of the path it leaves. *)
Theorem sys_path_only_grows (args : Args) w :
  sys_path w `suffix_of` sys_path (final (main args w)).
Proof.
  destruct (mount_prelude_quiet (mount_drive args) w)
    as (w0' & Hm' & _ & Hp0 & _).
  destruct (main_final args w) as (w0 & Hm & [[Hr _]|(specs & _ & Hp)]);
    rewrite Hm in Hm'; injection Hm' as <-.
  - rewrite Hr. simpl. by rewrite Hp0.
  - simpl in Hp. rewrite <- Hp0.
    pose proof (provision_path_grown specs
                  (if decide (gh_token args = "") then None
                   else Some (gh_token args)) [] w0) as Hg.
    destruct (provision specs _ [] w0) as [installed w1|e w1];
      rewrite Hp; exact Hg.
Qed.

Lemma mount_drive_block_root w :
  REPO_ROOT (final (mount_drive_block w)) =
  match colab_mount (host w) with
  | inl _ => REPO_ROOT w
  | inr _ => drive_root
  end.
Proof.
  unfold mount_drive_block.
  destruct (colab_mount (host w)) as [e|x]; [done|].
  by destruct (mkdir x _).
Qed.

(** X4: the cache root a run ends with is decided by the mount alone: it is
    the drive directory when [--mount-drive] was given and the mount
    succeeded (also when creating the directory then failed), and the old
    root otherwise; nothing later in the run changes it. *)
Theorem cache_root_after_main (args : Args) w :
  REPO_ROOT (final (main args w)) =
  if mount_drive args
  then match colab_mount (host w) with
       | inl _ => REPO_ROOT w
       | inr _ => drive_root
       end
  else REPO_ROOT w.
Proof.
  assert (∀ w0, (if mount_drive args then mount_drive_block else ret tt) w
                = Ok tt w0 →
                REPO_ROOT w0 =
                if mount_drive args
                then match colab_mount (host w) with
                     | inl _ => REPO_ROOT w
                     | inr _ => drive_root
                     end
                else REPO_ROOT w) as Hroot.
  { intros w0 Hm. destruct (mount_drive args).
    - rewrite <- mount_drive_block_root. by rewrite Hm.
    - by injection Hm as <-. }
  destruct (main_final args w) as (w0 & Hm & [[Hr _]|(specs & _ & Hp)]).
  - rewrite Hr. simpl. by apply Hroot.
  - simpl in Hp. rewrite <- (Hroot w0 Hm).
    pose proof (provision_advances (λ _, True) specs
                  (if decide (gh_token args = "") then None
                   else Some (gh_token args)) [] w0
                  (λ _ _, I) (λ _ _ _ _, I)) as (_ & _ & Hk).
    destruct (provision specs _ [] w0) as [installed w1|e w1];
      rewrite Hp; exact Hk.
Qed.

(** ** What a raise says *)

Lemma refused_iff (e : Kwargs) : RepoSpec_init e = None ↔ refused e.
Proof.
  unfold RepoSpec_init, refused.
  destruct (kw_unknown e), (kw_name e), (kw_url e);
    (split; [intros; first [discriminate | by (right; left) | by (right; right)
                            | by left]
            | intros [?|[?|?]]; first [done | discriminate]]).
Qed.

Lemma run_Ok_inv cmd cwd quiet w r w1 :
  run cmd cwd quiet true w = Ok r w1 →
  w1 = after_run cmd cwd quiet w ∧ exit_status (mkCmd cmd cwd) w = 0.
Proof.
  rewrite run_eq. simpl.
  destruct (exit_status (mkCmd cmd cwd) w =? 0) eqn:E; simpl; [|done].
  intros [= _ <-]. split; [done | by apply Z.eqb_eq].
Qed.

Lemma run_Raise_inv cmd cwd quiet check w e w1 :
  run cmd cwd quiet check w = Raise e w1 →
  w1 = after_run cmd cwd quiet w ∧
  e = SystemExit ("command failed: " +:+ String.concat " " cmd) ∧
  exit_status (mkCmd cmd cwd) w ≠ 0.
Proof.
  rewrite run_eq.
  destruct check; simpl; [|done].
  destruct (exit_status (mkCmd cmd cwd) w =? 0) eqn:E; simpl; [done|].
  intros [= <- <-]. repeat split. by apply Z.eqb_neq.
Qed.

Lemma raises_named_run cmd cwd quiet check :
  raises_named (run cmd cwd quiet check).
Proof.
  intros w e w' (-> & -> & _)%run_Raise_inv. right.
  exists (mkCmd cmd cwd). split; [|done]. simpl. apply last_snoc.
Qed.

Lemma raises_named_ret {A} (a : A) : raises_named (@ret X A a).
Proof. by intros w e w'. Qed.

Lemma raises_named_bind {A B} (c : M X A) (k : A → M X B) :
  raises_named c → (∀ a, raises_named (k a)) → raises_named (bind c k).
Proof.
  intros Hc Hk w e w'. unfold bind.
  destruct (c w) as [a w1|e1 w1] eqn:E.
  - apply Hk.
  - intros [= <- <-]. by eapply Hc.
Qed.

Lemma raises_named_add_to_syspath (p : string) :
  raises_named (add_to_syspath p).
Proof.
  intros w e w'. unfold add_to_syspath. by destruct (decide _).
Qed.

Ltac named :=
  repeat first
    [ apply raises_named_run
    | apply raises_named_add_to_syspath
    | apply raises_named_ret
    | apply raises_named_bind; [|intros ?] ].

Lemma raises_named_ensure (module : string) (pip_name : option string) :
  raises_named (ensure module pip_name).
Proof.
  intros w e w'. unfold ensure.
  destruct (importable (host w) module); [done|].
  revert w e w'. named.
Qed.

Lemma raises_named_git_clone_or_fetch spec (gh_token : option string) :
  raises_named (git_clone_or_fetch spec gh_token).
Proof.
  intros w. unfold git_clone_or_fetch.
  refine (raises_named_bind _ _ _ _ w).
  { destruct (path_exists (host w) _); apply raises_named_run. }
  intros _. apply raises_named_bind; [apply raises_named_run|].
  intros _. apply raises_named_bind; [|intros _; apply raises_named_ret].
  destruct (submodules spec); named.
Qed.

Lemma raises_named_install_repo spec (repo_dir : string) :
  raises_named (install_repo spec repo_dir).
Proof.
  intros w. unfold install_repo.
  refine (raises_named_bind _ _ _ _ w); [by intros w1 e w'|].
  intros _. apply raises_named_bind.
  - repeat case_decide.
    + named.
    + destruct (editable spec);
        unfold pip_editable_install, pip_noneditable_install; named.
    + unfold uv_install, pip_editable_install.
      apply raises_named_bind; [apply raises_named_ensure|].
      intros _. destruct (editable spec); named.
    + unfold poetry_install.
      apply raises_named_bind; [apply raises_named_ensure|].
      intros _. destruct (editable spec); named.
    + intros w1 e w' [= <- <-]. left. by eexists.
  - intros _. apply raises_named_bind; [apply raises_named_add_to_syspath|].
    intros _. destruct (truthy (post_install spec)); named.
Qed.

Lemma raises_named_provision (specs : list RepoSpec) token acc :
  raises_named (provision specs token acc).
Proof.
  revert acc. induction specs as [|spec rest IH]; intros acc; simpl.
  - apply raises_named_ret.
  - apply raises_named_bind; [apply raises_named_git_clone_or_fetch|].
    intros d. apply raises_named_bind; [apply raises_named_install_repo|].
    intros r. apply IH.
Qed.

(** X5: what a [SystemExit] of [main] says: either "unknown install mode",
    or "command failed" followed by the command line of the process that
    was spawned last. *)
Theorem system_exit_is_named (args : Args) w (msg : string) w' :
  main args w = Raise (SystemExit msg) w' →
  (∃ mode, msg = "unknown install mode: " +:+ mode) ∨
  (∃ c, last (spawned w') = Some c ∧
        msg = "command failed: " +:+ String.concat " " (argv c)).
Proof.
  intros Hmain.
  destruct (main_final args w) as (w0 & Hm & [[Hr _]|(specs & _ & Hp)]);
    [congruence|].
  simpl in Hp.
  destruct (provision specs _ [] w0) as [installed w1|e1 w1] eqn:Hprov;
    [congruence|].
  rewrite Hmain in Hp. injection Hp as <- <-.
  destruct (raises_named_provision _ _ _ _ _ _ Hprov)
    as [(mode & [= ->])|(c & Hlast & [= ->])]; [left | right]; eauto.
Qed.

(** X6: a refused entry anywhere in the manifest (a key that is no field of
    [RepoSpec], no [name], or no [url]) makes [main] raise a [TypeError]
    before any command is spawned, also for the entries that stand before
    it. *)
Theorem refused_entry_raises_type_error (args : Args) w :
  (∃ entry, entry ∈ default [] (manifest args !! "repos") ∧ refused entry) →
  ∃ w', main args w = Raise TypeError w' ∧ spawned w' = spawned w ∧
        issued (main args) w = [].
Proof.
  intros (entry & Hin & Href%refused_iff).
  destruct (mount_prelude_quiet (mount_drive args) w) as (w0 & Hm & Hs & _).
  assert (main args w = Raise TypeError w0) as Hmain.
  { unfold main. rewrite (bind_Ok_l _ _ _ _ _ Hm).
    apply bind_Raise_l. by eapply make_specs_refuses. }
  exists w0. split; [done|]. split; [done|].
  unfold issued. rewrite Hmain. simpl. by rewrite Hs, drop_all.
Qed.

(** ** The commands of a dispatch *)

Lemma install_repo_eq spec (repo_dir : string) w :
  let p := resolve (host w) (joinpath repo_dir (path spec)) in
  install_repo spec repo_dir w =
  bind (strategy_of spec p) (λ _, finish_of spec p)
       (set_environ (env spec ∪ environ w) w).
Proof. reflexivity. Qed.



Lemma issued_finish spec (p : string) w :
  issued (finish_of spec p) w =
  if truthy (post_install spec)
  then [mkCmd ["bash"; "-lc"; default "" (post_install spec)] (Some p)]
  else [].
Proof.
  unfold issued, finish_of, bind.
  destruct (add_to_syspath_eq p w) as (w1 & -> & _ & Hs & _).
  rewrite <- Hs. destruct (truthy (post_install spec)).
  - rewrite run_eq. destruct (true && _); simpl; by rewrite drop_app_length.
  - simpl. by rewrite drop_all.
Qed.

(** The commands of a dispatch are those of its strategy, followed by the
    post-install hook when the strategy went through. *)
Lemma issued_install_repo spec (repo_dir : string) w :
  let p := resolve (host w) (joinpath repo_dir (path spec)) in
  let w0 := set_environ (env spec ∪ environ w) w in
  issued (install_repo spec repo_dir) w =
  issued (strategy_of spec p) w0 ++
  match strategy_of spec p w0 with
  | Ok _ _ =>
      if truthy (post_install spec)
      then [mkCmd ["bash"; "-lc"; default "" (post_install spec)] (Some p)]
      else []
  | Raise _ _ => []
  end.
Proof.
  intros p w0.
  change (issued (install_repo spec repo_dir) w)
    with (issued (bind (strategy_of spec p) (λ _, finish_of spec p)) w0).
  rewrite issued_bind.
  - f_equal. destruct (strategy_of spec p w0); [apply issued_finish | done].
  - eapply evolves_advances. unfold strategy_of.
    by apply (keeps_strategy (λ _, True) p).
  - intros u w1 _. eapply evolves_advances. unfold finish_of.
    by apply (keeps_finish (λ _, True) p).
Qed.




Lemma ensure_cases (module : string) (pip_name : option string) w :
  let on_demand :=
    mkCmd [sys_executable; "-m"; "pip"; "install"; "-q";
           py_or pip_name module] None in
  ensure module pip_name w =
  if importable (host w) module then Ok tt w
  else if exit_status on_demand w =? 0
       then Ok tt (after_run (argv on_demand) None false w)
       else Raise (SystemExit ("command failed: " +:+
                               String.concat " " (argv on_demand)))
                  (after_run (argv on_demand) None false w).
Proof.
  intros on_demand. unfold ensure.
  destruct (importable (host w) module); [done|].
  unfold bind. rewrite run_eq. fold on_demand.
  by destruct (exit_status on_demand w =? 0).
Qed.




Lemma strategy_of_poetry spec (p : string) :
  install spec = "poetry" →
  strategy_of spec p = poetry_install p (editable spec) (extras spec).
Proof.
  intros Hpo. unfold strategy_of. rewrite Hpo.
  do 3 rewrite decide_False by done. by rewrite decide_True by done.
Qed.

(** X9: with the strategy [poetry] the [editable] flag changes nothing: the
    dispatch of a spec gives the same result, in the same world, whether
    [editable] is true or false (the project root is made importable in both
    cases). *)
Theorem poetry_ignores_editable spec (repo_dir : string) w :
  install spec = "poetry" →
  install_repo (with_editable true spec) repo_dir w =
  install_repo (with_editable false spec) repo_dir w.
Proof.
  intros Hpo. rewrite !install_repo_eq.
  cbn [with_editable path env].
  set (p := resolve (host w) (joinpath repo_dir (path spec))).
  set (w0 := set_environ _ w).
  rewrite !strategy_of_poetry by done.
  cbn [with_editable editable extras].
  change (finish_of (with_editable true spec) p) with (finish_of spec p).
  change (finish_of (with_editable false spec) p) with (finish_of spec p).
  unfold poetry_install, finish_of, bind.
  destruct (ensure "poetry" None w0) as [[] w1|e w1]; [|done].
  rewrite run_eq. destruct (true && _); [done|].
  set (w2 := after_run _ _ _ w1). unfold ret.
  unfold add_to_syspath.
  destruct (decide (p ∈ sys_path w2)) as [Hin|Hni].
  - by rewrite decide_True.
  - cbn [sys_path set_sys_path].
    rewrite decide_True; [done | apply list_elem_of_here].
Qed.

(** X10: the commands of a dispatch, for every strategy: some
    [python -m pip|uv|poetry ...] commands and then at most one more, the
    post-install hook [bash -lc HOOK] in the project root.  When the dispatch
    returns, the hook was run (last) if [post_install] is a non-empty string,
    and not at all if it is [None] or empty; the record returned carries the
    spec's name and the project root. *)
Theorem dispatch_commands spec (repo_dir : string) w :
  let p := resolve (host w) (joinpath repo_dir (path spec)) in
  let hook :=
    mkCmd ["bash"; "-lc"; default "" (post_install spec)] (Some p) in
  ∃ cmds tail,
    issued (install_repo spec repo_dir) w = cmds ++ tail ∧
    Forall tool_command cmds ∧
    (tail = [] ∨ tail = [hook]) ∧
    (∀ r w', install_repo spec repo_dir w = Ok r w' →
             r = mkRunResult (name spec) p ∧
             tail = if truthy (post_install spec) then [hook] else []).
Proof.
  intros p hook. rewrite issued_install_repo. fold p.
  set (w0 := set_environ _ w).
  eexists _, _. split; [reflexivity|]. split; [|split].
  - apply (advances_issued tool_command).
    apply (evolves_advances _ (Some p)). unfold strategy_of.
    apply keeps_strategy; intros rest cwd; eexists _, rest;
      (split; [reflexivity | set_solver]).
  - destruct (strategy_of spec p w0); [|by left].
    destruct (truthy (post_install spec)); [by right | by left].
  - intros r w' Hok. split; [by apply install_repo_Ok_inv in Hok as [-> _]|].
    rewrite install_repo_eq in Hok. fold p w0 in Hok.
    by apply bind_Ok_inv in Hok as ([] & w1 & -> & _).
Qed.

(** ** Synchronization *)

(** X11: a synchronization that returns has spawned the clone or fetch, the
    checkout of the ref and, exactly when [submodules] is set,
    [git submodule update --init --recursive], the last two in the
    destination; it returns the destination, [REPO_ROOT/name].  The
    submodule command is never spawned for a spec without [submodules]. *)
Theorem sync_on_success spec (gh_token : option string) w :
  let dest := joinpath (REPO_ROOT w) (name spec) in
  let first :=
    if path_exists (host w) dest
    then mkCmd ["git"; "fetch"; "--all"; "--tags"] (Some dest)
    else mkCmd (clone_cmd spec gh_token dest) None in
  let update :=
    mkCmd ["git"; "submodule"; "update"; "--init"; "--recursive"]
          (Some dest) in
  let cmds := issued (git_clone_or_fetch spec gh_token) w in
  (∀ d w', git_clone_or_fetch spec gh_token w = Ok d w' →
     d = dest ∧
     cmds = first :: mkCmd ["git"; "checkout"; ref spec] (Some dest)
                  :: (if submodules spec then [update] else [])) ∧
  (submodules spec = false → update ∉ cmds).
Proof.
  intros dest first update cmds. subst cmds.
  rewrite issued_git_clone_or_fetch. fold dest first update. split.
  - intros d w' Hok. split; [by apply git_clone_or_fetch_Ok_inv in Hok|].
    unfold git_clone_or_fetch in Hok. fold dest in Hok.
    apply bind_Ok_inv in Hok as (r1 & w1 & H1 & Hok).
    assert (w1 = after_run (argv first) (cwd first) false w ∧
            exit_status first w = 0) as [-> ->].
    { subst first. destruct (path_exists (host w) dest);
        by apply run_Ok_inv in H1. }
    apply bind_Ok_inv in Hok as (r2 & w2 & H2 & Hok).
    apply run_Ok_inv in H2 as [-> ->]. simpl.
    by destruct (submodules spec).
  - intros ->. rewrite andb_false_r.
    assert (first ≠ update) as Hne.
    { subst first update. destruct (path_exists (host w) dest);
        [congruence|]. unfold clone_cmd.
      destruct (truthy gh_token && _); congruence. }
    apply not_elem_of_cons. split; [congruence|].
    destruct (exit_status first w =? 0); [|apply not_elem_of_nil].
    apply not_elem_of_cons. split; [|apply not_elem_of_nil].
    subst update. congruence.
Qed.

(** X12: once the destination exists, neither the url of the spec nor the
    access token plays any part: the synchronization is the same, command
    for command and world for world, for any other url and any other
    token. *)
Theorem existing_checkout_ignores_url_and_token spec (u : string)
    (token token' : option string) w :
  path_exists (host w) (joinpath (REPO_ROOT w) (name spec)) = true →
  git_clone_or_fetch (with_url u spec) token' w =
  git_clone_or_fetch spec token w.
Proof.
  intros Hex. unfold git_clone_or_fetch. cbn [with_url name ref submodules].
  by rewrite Hex.
Qed.

(** ** Started as a script *)

(** X13: started as a script where [yaml] cannot be imported, the program
    first runs [pip install -q pyyaml]; if that fails the script stops there
    with the "command failed" [SystemExit], and otherwise it goes on as
    [main] in the world the install left.  Where [yaml] can be imported, it
    is [main] from the start. *)
Theorem script_bootstraps_yaml (args : Args) w :
  let install_yaml :=
    mkCmd [sys_executable; "-m"; "pip"; "install"; "-q"; "pyyaml"] None in
  let w1 := after_run (argv install_yaml) None false w in
  (importable (host w) "yaml" = true → script_entry args w = main args w) ∧
  (importable (host w) "yaml" = false →
   issued (script_entry args) w !! 0%nat = Some install_yaml ∧
   (exit_status install_yaml w = 0 → script_entry args w = main args w1) ∧
   (exit_status install_yaml w ≠ 0 →
    script_entry args w =
      Raise (SystemExit ("command failed: " +:+
                         String.concat " " (argv install_yaml))) w1 ∧
    issued (script_entry args) w = [install_yaml])).
Proof.
  intros install_yaml w1.
  assert (∀ b, importable (host w) "yaml" = b →
               script_entry args w =
               if b then main args w
               else if exit_status install_yaml w =? 0 then main args w1
                    else Raise (SystemExit ("command failed: " +:+
                                  String.concat " " (argv install_yaml))) w1)
    as Hcases.
  { intros b Hb. unfold script_entry, bind. rewrite ensure_cases, Hb.
    destruct b; [done|]. cbn [py_or]. fold install_yaml w1.
    by destruct (exit_status install_yaml w =? 0). }
  split; [apply (Hcases true)|]. intros Hno.
  specialize (Hcases false Hno). cbv beta iota in Hcases.
  split; [|split].
  - unfold issued. rewrite Hcases.
    destruct (exit_status install_yaml w =? 0).
    + destruct (main_final args w1) as (w0 & Hm & Hor).
      destruct (mount_prelude_quiet (mount_drive args) w1)
        as (w0' & Hm' & Hs & _).
      rewrite Hm in Hm'. injection Hm' as <-.
      assert (∃ cmds, spawned (final (main args w1)) = spawned w1 ++ cmds)
        as (cmds & ->).
      { destruct Hor as [[-> _]|(specs & _ & Hp)].
        - exists []. simpl. by rewrite Hs, app_nil_r.
        - simpl in Hp.
          pose proof (provision_advances (λ _, True) specs
                        (if decide (gh_token args = "") then None
                         else Some (gh_token args)) [] w0
                        (λ _ _, I) (λ _ _ _ _, I)) as ((cmds & Hc & _) & _).
          exists cmds. rewrite <- Hs.
          destruct (provision specs _ [] w0); by rewrite Hp. }
      subst w1. cbn [spawned after_run].
      by rewrite <- app_assoc, drop_app_length.
    + subst w1. simpl. by rewrite drop_app_length.
  - intros H0. by rewrite Hcases, H0.
  - intros Hne%Z.eqb_neq. rewrite Hne in Hcases. split; [done|].
    unfold issued. rewrite Hcases. subst w1. simpl.
    by rewrite drop_app_length.
Qed.

(** ** What is printed *)

#[local] Instance out_grown_preorder : PreOrder (@out_grown X).
Proof.
  split.
  - intros w. unfold out_grown. reflexivity.
  - intros w1 w2 w3. unfold out_grown. intros H1 H2. by etrans.
Qed.

Lemma out_grown_run cmd cwd quiet w :
  out_grown w (after_run cmd cwd quiet w).
Proof. unfold out_grown. simpl. by apply prefix_app_r. Qed.

Lemma out_grown_insert (p : string) w :
  p ∉ sys_path w → out_grown w (set_sys_path (p :: sys_path w) w).
Proof. intros _. unfold out_grown. reflexivity. Qed.

Lemma prefix_append (t b : string) : String.prefix t (t +:+ b) = true.
Proof.
  induction t as [|a t IH]; simpl; [by destruct b|].
  by destruct (Ascii.ascii_dec a a).
Qed.

Lemma is_substring_unfold (t s : string) :
  is_substring t s =
  String.prefix t s ||
  match s with
  | EmptyString => false
  | String _ s' => is_substring t s'
  end.
Proof. by destruct s. Qed.

Lemma is_substring_append (a t b : string) :
  is_substring t (a +:+ (t +:+ b)) = true.
Proof.
  induction a as [|c a IH].
  - change (is_substring t (t +:+ b) = true).
    by rewrite is_substring_unfold, prefix_append.
  - change (String.prefix t (String c (a +:+ (t +:+ b))) ||
            is_substring t (a +:+ (t +:+ b)) = true).
    rewrite IH. apply orb_true_r.
Qed.

(** The first line a synchronization prints is the command line of its
    clone or fetch. *)
Lemma sync_first_line spec (gh_token : option string) w :
  let dest := joinpath (REPO_ROOT w) (name spec) in
  let first :=
    if path_exists (host w) dest
    then ["git"; "fetch"; "--all"; "--tags"]
    else clone_cmd spec gh_token dest in
  ∃ rest,
    stdout (final (git_clone_or_fetch spec gh_token w)) =
    stdout w ++ Line ("$ " +:+ String.concat " " first) :: rest.
Proof.
  intros dest first. unfold git_clone_or_fetch. fold dest.
  set (k := λ _ : Z * string, bind _ _).
  assert (∀ r, keeps out_grown (k r)) as Hk.
  { intros r. subst k. cbn beta.
    apply keeps_bind; [apply _ | apply (frame_run _ out_grown_run) |].
    intros _. apply keeps_bind; [apply _ | | intros _; apply keeps_ret, _].
    destruct (submodules spec); [|apply keeps_ret, _].
    apply keeps_bind; [apply _ | apply (frame_run _ out_grown_run) |].
    intros _. apply keeps_ret, _. }
  assert (∀ cmd cwd,
            ∃ rest, stdout (final (bind (run cmd cwd false true) k w)) =
                    stdout w ++ Line ("$ " +:+ String.concat " " cmd) :: rest)
    as Hrun.
  { intros cmd cwd. unfold bind. rewrite run_eq.
    destruct (true && _); cbn [final].
    - eexists. reflexivity.
    - destruct (Hk (exec cmd cwd (environ w) (host w)).1
                   (after_run cmd cwd false w)) as [out Hout].
      rewrite Hout. cbn [stdout after_run]. rewrite <- app_assoc.
      eexists. reflexivity. }
  subst first. destruct (path_exists (host w) dest); apply Hrun.
Qed.

(** X14: the access token is not kept out of the output.  When the
    authorization header is used (non-empty token, GitHub url, destination
    absent), the synchronization prints the clone command line, and the
    token is part of that line; when the clone fails, the token is part of
    the message of the [SystemExit] as well. *)
Theorem token_is_echoed spec (tok : string) w :
  let dest := joinpath (REPO_ROOT w) (name spec) in
  let clone := clone_cmd spec (Some tok) dest in
  let line := "$ " +:+ String.concat " " clone in
  tok ≠ "" →
  String.prefix "https://github.com/" (url spec) = true →
  path_exists (host w) dest = false →
  Line line ∈ stdout (final (git_clone_or_fetch spec (Some tok) w)) ∧
  is_substring tok line = true ∧
  (exit_status (mkCmd clone None) w ≠ 0 →
   ∃ msg w', git_clone_or_fetch spec (Some tok) w = Raise (SystemExit msg) w' ∧
             is_substring tok msg = true).
Proof.
  intros dest clone line Htok Hurl Hex.
  assert (clone = ["git"; "-c";
                   "http.extraheader=AUTHORIZATION: bearer " +:+ tok;
                   "clone"; url spec; dest]) as Hclone.
  { subst clone. unfold clone_cmd. rewrite Hurl.
    by destruct tok. }
  split; [|split].
  - destruct (sync_first_line spec (Some tok) w) as [rest Hout].
    fold dest in Hout. rewrite Hex in Hout. fold clone line in Hout.
    rewrite Hout. apply elem_of_app. right. apply list_elem_of_here.
  - subst line. rewrite Hclone.
    exact (is_substring_append
             "$ git -c http.extraheader=AUTHORIZATION: bearer " tok
             (" " +:+ String.concat " " ["clone"; url spec; dest])).
  - intros Hne. unfold git_clone_or_fetch. fold dest. rewrite Hex.
    fold clone. unfold bind at 1. rewrite run_eq.
    apply Z.eqb_neq in Hne. rewrite Hne. cbn [andb negb].
    eexists _, _. split; [reflexivity|]. rewrite Hclone.
    exact (is_substring_append
             "command failed: git -c http.extraheader=AUTHORIZATION: bearer "
             tok (" " +:+ String.concat " " ["clone"; url spec; dest])).
Qed.

End Proofs.

(** * The theorems at work on the small host *)

(** Against C10 as stated: the empty document has no [repos] key, and the
    run on it raises instead of printing an empty summary. *)
Lemma empty_document_raises :
  main_on DocOther "" false fresh = Raise AttributeError fresh ∧
  reported (stdout (final (main_on DocOther "" false fresh))) = [].
Proof. split; reflexivity. Qed.

(** An instance of C10: a mapping without [repos]. *)
Lemma run_without_repos_witness :
  ∃ w', main_on (DocMapping ∅) "" false fresh = Ok tt w' ∧
        spawned w' = spawned fresh ∧
        issued (main_on (DocMapping ∅) "" false) fresh = [] ∧
        reported (stdout w') = reported (stdout fresh) ++ [[]].
Proof.
  apply (proj1 (run_without_repos (DocMapping ∅) "" false fresh) ∅ eq_refl).
  left. reflexivity.
Defined.



(** Against C2 as stated: [a] is provisioned before [b], and [b]'s root
    ends up ahead of [a]'s on [sys.path]. *)
Lemma earlier_insertion_loses_priority :
  let args := args_of [entry_with "a" "https://example/a.git" "none";
                       entry_with "b" "https://example/b.git" "none"] "" in
  let w' := final (main args fresh) in
  reported (stdout w') =
    [[mkRunResult "a" "/content/repos/a"; mkRunResult "b" "/content/repos/b"]] ∧
  sys_path w' = ["/content/repos/b"; "/content/repos/a"] ∧
  sys_path w' !! 0%nat = Some "/content/repos/b".
Proof. vm_compute. repeat split. Qed.

(** An instance of C2: the same two repositories. *)
Lemma later_insertion_takes_priority_witness :
  let args := args_of [entry_with "a" "https://example/a.git" "none";
                       entry_with "b" "https://example/b.git" "none"] "" in
  ∃ w' installed,
    main args fresh = Ok tt w' ∧
    reported (stdout w') = reported (stdout fresh) ++ [installed] ∧
    sys_path w' =
      foldl (λ sp p, if decide (p ∈ sp) then sp else p :: sp)
            (sys_path fresh) (res_path <$> installed).
Proof.
  intros args. eexists.
  assert (main args fresh = Ok tt (final (main args fresh))) as Hmain
    by (vm_compute; reflexivity).
  destruct (later_insertion_takes_priority args fresh _ Hmain)
    as (installed & Hrep & Hpath & _).
  exists installed. split; [exact Hmain|]. split; [exact Hrep | exact Hpath].
Defined.




(** An instance of C5: a synchronization into an empty cache. *)
Lemma sync_clones_or_fetches_witness :
  let cmds := issued (git_clone_or_fetch spec_a None) fresh in
  (length (List.filter is_clone cmds) = 1%nat ∧
   length (List.filter is_fetch cmds) = 0%nat) ∧
  cmds !! 1%nat =
    Some (mkCmd ["git"; "checkout"; "main"] (Some "/content/repos/a")).
Proof.
  intros cmds.
  pose proof (sync_clones_or_fetches spec_a None fresh) as (H1 & _ & H3).
  split; [exact (proj2 (H1 eq_refl))|].
  exact (H3 (mkCmd ["git"; "clone"; "https://example/a.git";
                    "/content/repos/a"] None) eq_refl eq_refl).
Defined.


(** Against C7 as stated: the token is the word "tools", which the url
    contains. *)
Lemma token_occurs_in_url_argument :
  let header :=
    mkCmd ["git"; "-c"; "http.extraheader=AUTHORIZATION: bearer tools";
           "clone"; "https://github.com/acme/tools.git";
           "/content/repos/tools"] None in
  issued (git_clone_or_fetch spec_gh (Some "tools")) fresh !! 0%nat =
    Some header ∧
  has_auth_header header = true ∧
  url_argument header = Some "https://github.com/acme/tools.git" ∧
  is_substring "tools" "https://github.com/acme/tools.git" = true.
Proof. vm_compute. repeat split. Qed.

(** An instance of C7: a token that the url does not contain. *)
Lemma token_goes_in_header_witness :
  ∃ c, issued (git_clone_or_fetch spec_gh (Some "s3cret")) fresh !! 0%nat =
         Some c ∧
       argv c = ["git"; "-c"; "http.extraheader=AUTHORIZATION: bearer s3cret";
                 "clone"; "https://github.com/acme/tools.git";
                 "/content/repos/tools"] ∧
       has_auth_header c = true ∧
       url_argument c = Some "https://github.com/acme/tools.git" ∧
       (is_substring "s3cret" "https://github.com/acme/tools.git" = false →
        ∃ u, url_argument c = Some u ∧ is_substring "s3cret" u = false).
Proof.
  exact (token_goes_in_header spec_gh "s3cret" fresh
           ltac:(discriminate) eq_refl eq_refl).
Defined.

(** An instance of C9: a GitHub url, with the token left empty. *)
Lemma empty_token_is_no_token_witness :
  let args := args_of [entry "tools" "https://github.com/acme/tools.git"] "" in
  Forall (λ c, has_auth_header c = false) (issued (main args) fresh) ∧
  issued (git_clone_or_fetch spec_gh (Some "")) fresh !! 0%nat =
    Some (mkCmd ["git"; "clone"; "https://github.com/acme/tools.git";
                 "/content/repos/tools"] None).
Proof.
  intros args.
  pose proof (empty_token_is_no_token args spec_gh "/content/repos/tools"
                fresh) as (H1 & _ & _ & _ & H5).
  split; [exact (H1 eq_refl) | exact (H5 eq_refl)].
Defined.

(** * The rest of the script on the small host *)


(** An instance of X2: two entries that both set [MODE]. *)
Lemma environ_accumulates_witness :
  let args :=
    args_of [entry_env "a" "https://example/a.git" {[ "MODE" := "dev" ]};
             entry_env "b" "https://example/b.git" {[ "MODE" := "prod" ]}]
            "" in
  ∃ w' specs,
    main args with_home = Ok tt w' ∧
    Forall2 (λ e spec, RepoSpec_init e = Some spec)
            (default [] (manifest args !! "repos")) specs ∧
    environ w' = foldl (λ e spec, env spec ∪ e) (environ with_home) specs.
Proof.
  intros args. eexists.
  assert (main args with_home = Ok tt (final (main args with_home)))
    as Hmain by (vm_compute; reflexivity).
  destruct (environ_accumulates args with_home _ Hmain)
    as (specs & HF & He).
  exists specs. split; [exact Hmain|]. split; [exact HF | exact He].
Defined.

(** An instance of X5: the run whose second repository cannot be cloned. *)
Lemma system_exit_is_named_witness :
  let args := args_of [entry_with "a" "https://example/a.git" "none";
                       entry "x" "https://example/broken.git"] "" in
  ∃ msg w',
    main args fresh = Raise (SystemExit msg) w' ∧
    ((∃ mode, msg = "unknown install mode: " +:+ mode) ∨
     (∃ c, last (spawned w') = Some c ∧
           msg = "command failed: " +:+ String.concat " " (argv c))).
Proof.
  intros args. do 2 eexists.
  assert (main args fresh =
          Raise (SystemExit
                   ("command failed: git clone https://example/broken.git " +:+
                    "/content/repos/x"))
                (final (main args fresh))) as Hmain
    by (vm_compute; reflexivity).
  split; [exact Hmain|]. exact (system_exit_is_named args fresh _ _ Hmain).
Defined.

(** An instance of X6: a manifest whose second entry has a key [branch]. *)
Lemma refused_entry_raises_type_error_witness :
  let args := args_of [entry "a" "https://example/a.git";
                       entry_typo "b" "https://example/b.git"] "" in
  ∃ w', main args fresh = Raise TypeError w' ∧ spawned w' = spawned fresh ∧
        issued (main args) fresh = [].
Proof.
  intros args. apply (refused_entry_raises_type_error args fresh).
  exists (entry_typo "b" "https://example/b.git"). split.
  - apply list_elem_of_further, list_elem_of_here.
  - left. discriminate.
Defined.



(** An instance of X9. *)
Lemma poetry_ignores_editable_witness :
  install_repo (with_editable true spec_poetry) "/content/repos/p" fresh =
  install_repo (with_editable false spec_poetry) "/content/repos/p" fresh.
Proof.
  exact (poetry_ignores_editable spec_poetry "/content/repos/p" fresh eq_refl).
Defined.

(** An instance of X10: a pip install followed by its hook. *)
Lemma dispatch_commands_witness :
  ∃ cmds tail,
    issued (install_repo spec_hook "/content/repos/h") fresh = cmds ++ tail ∧
    tail = [mkCmd ["bash"; "-lc"; "make assets"] (Some "/content/repos/h")].
Proof.
  destruct (dispatch_commands spec_hook "/content/repos/h" fresh)
    as (cmds & tail & H1 & _ & _ & H4).
  exists cmds, tail. split; [exact H1|].
  assert (install_repo spec_hook "/content/repos/h" fresh =
          Ok (mkRunResult "h" "/content/repos/h")
             (final (install_repo spec_hook "/content/repos/h" fresh)))
    as Hok by (vm_compute; reflexivity).
  exact (proj2 (H4 _ _ Hok)).
Defined.

(** An instance of X11: a spec with submodules, into an empty cache. *)
Lemma sync_on_success_witness :
  issued (git_clone_or_fetch spec_sub None) fresh =
    [mkCmd ["git"; "clone"; "https://example/s.git"; "/content/repos/s"] None;
     mkCmd ["git"; "checkout"; "v2"] (Some "/content/repos/s");
     mkCmd ["git"; "submodule"; "update"; "--init"; "--recursive"]
           (Some "/content/repos/s")].
Proof.
  assert (git_clone_or_fetch spec_sub None fresh =
          Ok "/content/repos/s"
             (final (git_clone_or_fetch spec_sub None fresh)))
    as Hok by (vm_compute; reflexivity).
  exact (proj2 (proj1 (sync_on_success spec_sub None fresh) _ _ Hok)).
Defined.

(** An instance of X12: [a] is in the cache already. *)
Lemma existing_checkout_ignores_url_and_token_witness :
  git_clone_or_fetch (with_url "https://github.com/me/fork.git" spec_a)
                     (Some "s3cret") cached =
  git_clone_or_fetch spec_a None cached.
Proof.
  exact (existing_checkout_ignores_url_and_token spec_a
           "https://github.com/me/fork.git" None (Some "s3cret") cached
           eq_refl).
Defined.

(** An instance of X13: a machine without [yaml]. *)
Lemma script_bootstraps_yaml_witness :
  let args := args_of [entry_with "a" "https://example/a.git" "none"] "" in
  issued (script_entry args) bare !! 0%nat =
    Some (mkCmd ["/usr/bin/python3"; "-m"; "pip"; "install"; "-q"; "pyyaml"]
                None).
Proof.
  intros args.
  exact (proj1 (proj2 (script_bootstraps_yaml args bare) eq_refl)).
Defined.

(** An instance of X14. *)
Lemma token_is_echoed_witness :
  let line :=
    "$ git -c http.extraheader=AUTHORIZATION: bearer s3cret clone " +:+
    "https://github.com/acme/tools.git /content/repos/tools" in
  Line line
    ∈ stdout (final (git_clone_or_fetch spec_gh (Some "s3cret") fresh)) ∧
  is_substring "s3cret" line = true.
Proof.
  intros line.
  pose proof (token_is_echoed spec_gh "s3cret" fresh ltac:(discriminate)
                eq_refl eq_refl) as (H1 & H2 & _).
  split; [exact H1 | exact H2].
Defined.
